(** * Sandbox Mailer: the mail capture pipeline of [server/index.js]

    A shallow embedding of the server: the process-wide configuration and
    its [PUT /api/config] merge, the rate limiter [checkRateLimit], the
    latency helper [simulateLatency], the two bounded stores, the SMTP
    [onData] handler and the attachment endpoints.

    Conventions.
    - JavaScript numbers are modelled by [Z]: every number this file
      computes with is an integer (counters, milliseconds, sizes), and the
      arithmetic is the exact one.
    - JavaScript strings are modelled by [string].
    - The clock ([Date.now()], [new Date().toISOString()]), the id
      generator ([uuidv4()]), the random source ([Math.random()]) and the
      MIME parser ([simpleParser]) are outside the program: their results
      are inputs of the functions below. *)

From Stdlib Require Import ZArith NArith QArith Qround Lia Lqa Ascii String List.
From Stdlib.Strings Require Byte.
From stdpp Require Import base option list strings gmap fin_maps pretty.

Set Warnings "-register-all".
Open Scope Z_scope.

(** ** JavaScript values as they come out of [JSON.parse] *)

Inductive jsval : Type :=
| JNull
| JBool (b : bool)
| JNum (n : Z)
| JStr (s : string)
| JArr (elems : list jsval)
| JObj (props : gmap string jsval).

(** A property read yields [None] for [undefined]. *)
Definition truthy (v : option jsval) : bool :=
  match v with
  | None => false
  | Some JNull => false
  | Some (JBool b) => b
  | Some (JNum n) => negb (n =? 0)
  | Some (JStr s) => negb (String.eqb s "")
  | Some (JArr _) => true
  | Some (JObj _) => true
  end.

(** [typeof v === 'number']; [JSON.parse] never yields [NaN]. *)
Definition is_number (v : option jsval) : bool :=
  match v with
  | Some (JNum _) => true
  | _ => false
  end.

Definition as_number (v : option jsval) : option Z :=
  match v with
  | Some (JNum n) => Some n
  | _ => None
  end.

(** The index keys ["0"], ["1"], ... of an array-like value. *)
Fixpoint index_props_from (i : nat) (l : list jsval) : gmap string jsval :=
  match l with
  | [] => ∅
  | v :: l' => <[pretty i := v]> (index_props_from (S i) l')
  end.

Definition chars_of (s : string) : list jsval :=
  (fun c => JStr (String c EmptyString)) <$> list_ascii_of_string s.

(** The own enumerable properties that an object spread [{...v}] copies. *)
Definition own_props (v : jsval) : gmap string jsval :=
  match v with
  | JObj m => m
  | JArr l => index_props_from 0 l
  | JStr s => index_props_from 0 (chars_of s)
  | JNull | JBool _ | JNum _ => ∅
  end.

(** [{ ...a, ...b }]: the properties of [b] win. *)
Definition spread2 (a : gmap string jsval) (b : jsval) : gmap string jsval :=
  own_props b ∪ a.

(** The named property read by the destructuring
    [const { rateLimit, latency } = req.body].  [express.json()] hands over
    an object or an array; an array has no such named property. *)
Definition get_prop (body : jsval) (k : string) : option jsval :=
  match body with
  | JObj m => m !! k
  | _ => None
  end.

(** ** Configuration *)

Record Config : Type := mkConfig {
  rateLimit : gmap string jsval;
  latency : gmap string jsval;
}.

Definition default_config : Config :=
  {| rateLimit := {[ "enabled" := JBool true; "maxPerSecond" := JNum 1 ]};
     latency := {[ "enabled" := JBool false; "minMs" := JNum 0;
                   "maxMs" := JNum 0 ]} |}.

(** [app.put('/api/config')]: the new configuration, which is also the
    response body ([res.json(config)]). *)
Definition put_config (body : jsval) (config : Config) : Config :=
  let rl := get_prop body "rateLimit" in
  let lat := get_prop body "latency" in
  let config1 :=
    match rl with
    | Some v =>
        if truthy rl
        then {| rateLimit := spread2 (rateLimit config) v;
                latency := latency config |}
        else config
    | None => config
    end in
  match lat with
  | Some v =>
      if truthy lat
      then {| rateLimit := rateLimit config1;
              latency := spread2 (latency config1) v |}
      else config1
  | None => config1
  end.

Definition put_config_response (body : jsval) (config : Config) : Config :=
  put_config body config.

(** ** Latency simulation *)

(** What [simulateLatency] hands back: a promise that is already resolved,
    or one that a timer resolves after [delay] milliseconds. *)
Inductive LatencyAction : Type :=
| ResolveNow
| SetTimeout (delay : Z).

Definition delay_ms (a : LatencyAction) : Z :=
  match a with
  | ResolveNow => 0
  | SetTimeout d => d
  end.

(** [simulateLatency]; [rnd] is the value of [Math.random()], a rational
    in [0, 1).  The result is [None] when [minMs] or [maxMs] does not hold
    a number: the arithmetic then goes through JavaScript's coercions,
    which this model leaves out. *)
Definition simulateLatency (rnd : Q) (config : Config) : option LatencyAction :=
  if negb (truthy (latency config !! "enabled")) then Some ResolveNow
  else
    maxMs ← as_number (latency config !! "maxMs");
    minMs ← as_number (latency config !! "minMs");
    let delay :=
      Qfloor (Qplus (Qmult rnd (inject_Z (maxMs - minMs + 1)))
                    (inject_Z minMs)) in
    Some (SetTimeout delay).

(** ** Rate limiting *)

Inductive RateLimitCheck : Type :=
| Allowed
| Denied (code : Z) (message : string) (retryAfter : Z).

Definition allowed (r : RateLimitCheck) : bool :=
  match r with
  | Allowed => true
  | Denied _ _ _ => false
  end.

Definition rate_limit_message (maxPerSecond : Z) : string :=
  "421 4.7.0 Rate limit exceeded: Maximum " +:+ pretty maxPerSecond +:+
  " email(s) per second allowed. Please retry after 1 second.".

(** [checkRateLimit]; [now] is [Date.now()].  JavaScript's [%] truncates
    towards zero ([Z.rem]) and [Math.ceil] of an integer is that integer.
    The result is [None] when rate limiting is enabled and [maxPerSecond]
    does not hold a number (the comparison then coerces its operand). *)
Definition checkRateLimit (now : Z) (config : Config)
    (lastEmailTime emailsInCurrentSecond : Z) : option RateLimitCheck :=
  if negb (truthy (rateLimit config !! "enabled")) then Some Allowed
  else
    let timeSinceLastEmail := now - lastEmailTime in
    maxPerSecond ← as_number (rateLimit config !! "maxPerSecond");
    if emailsInCurrentSecond >=? maxPerSecond
    then Some (Denied 421 (rate_limit_message maxPerSecond)
                 (1000 - Z.rem now 1000))
    else Some Allowed.

(** ** Bounded stores *)

(** [arr.pop()]: drop the last element. *)
Definition pop {A} (l : list A) : list A := removelast l.

(** [arr.unshift(x); if (arr.length > cap) arr.pop();] *)
Definition store_insert {A} (cap : nat) (x : A) (l : list A) : list A :=
  let l1 := x :: l in
  if (cap <? length l1)%nat then pop l1 else l1.

Definition EMAILS_CAP : nat := 100.
Definition ERRORS_CAP : nat := 50.

(** Insert the elements of [xs] one after the other, first element first. *)
Definition insert_all {A} (cap : nat) (xs : list A) (l : list A) : list A :=
  foldl (fun acc x => store_insert cap x acc) l xs.

(** ** The base64 codec of Node's [Buffer]

    [buf.toString('base64')] writes the standard alphabet with [=] padding.
    [Buffer.from(s, 'base64')] is lenient: it accepts the URL-safe letters
    as well, skips every character outside the alphabet and stops at the
    first [=]. *)
Module Base64.

Definition alphabet : list ascii :=
  list_ascii_of_string
    "ABCDEFGHIJKLMNOPQRSTUVWXYZabcdefghijklmnopqrstuvwxyz0123456789+/".

Definition pad : ascii := "="%char.

Definition char_of (n : N) : ascii := nth (N.to_nat n) alphabet pad.

Definition value_of (c : ascii) : option N :=
  let n := N_of_ascii c in
  if ((65 <=? n) && (n <=? 90))%N then Some (n - 65)%N
  else if ((97 <=? n) && (n <=? 122))%N then Some (n - 71)%N
  else if ((48 <=? n) && (n <=? 57))%N then Some (n + 4)%N
  else if ((n =? 43) || (n =? 45))%N then Some 62%N
  else if ((n =? 47) || (n =? 95))%N then Some 63%N
  else None.

Definition byte_of (n : N) : Byte.byte :=
  match Byte.of_N (n mod 256) with
  | Some b => b
  | None => Byte.x00
  end.

Fixpoint encode_chars (bs : list Byte.byte) : list ascii :=
  match bs with
  | [] => []
  | [a] =>
      let x := Byte.to_N a in
      [char_of (x / 4); char_of ((x mod 4) * 16); pad; pad]%N
  | [a; b] =>
      let x := Byte.to_N a in
      let y := Byte.to_N b in
      [char_of (x / 4); char_of ((x mod 4) * 16 + y / 16);
       char_of ((y mod 16) * 4); pad]%N
  | a :: b :: c :: rest =>
      let x := Byte.to_N a in
      let y := Byte.to_N b in
      let z := Byte.to_N c in
      ([char_of (x / 4); char_of ((x mod 4) * 16 + y / 16);
        char_of ((y mod 16) * 4 + z / 64); char_of (z mod 64)]%N)
      ++ encode_chars rest
  end.

(** [buf.toString('base64')] *)
Definition encode (bs : list Byte.byte) : string :=
  string_of_list_ascii (encode_chars bs).

(** The 6-bit values of the characters read before the first [=]. *)
Fixpoint sextets (cs : list ascii) : list N :=
  match cs with
  | [] => []
  | c :: cs' =>
      if Ascii.eqb c pad then []
      else match value_of c with
           | Some v => v :: sextets cs'
           | None => sextets cs'
           end
  end.

Fixpoint group (vs : list N) : list Byte.byte :=
  match vs with
  | p :: q :: r :: t :: rest =>
      ([byte_of (p * 4 + q / 16); byte_of ((q mod 16) * 16 + r / 4);
        byte_of ((r mod 4) * 64 + t)]%N) ++ group rest
  | [p; q; r] =>
      [byte_of (p * 4 + q / 16); byte_of ((q mod 16) * 16 + r / 4)]%N
  | [p; q] => [byte_of (p * 4 + q / 16)]%N
  | _ => []
  end.

(** [Buffer.from(s, 'base64')] *)
Definition decode (s : string) : list Byte.byte :=
  group (sextets (list_ascii_of_string s)).

End Base64.

(** ** Data model *)

Record Attachment : Type := mkAttachment {
  att_id : string;
  att_filename : string;
  att_contentType : string;
  att_size : Z;
  att_content : string;        (* base64 text *)
  att_cid : option string;     (* [None] is [null] *)
}.

Record Email : Type := mkEmail {
  email_id : string;
  email_from : string;
  email_to : string;
  email_cc : string;
  email_bcc : string;
  email_subject : string;
  email_text : string;
  email_html : string;
  email_attachments : list Attachment;
  email_headers : gmap string string;
  email_receivedAt : string;
  email_size : Z;
}.

Inductive ErrorType : Type := rate_limit | server_error.

Record ErrorRecord : Type := mkErrorRecord {
  err_id : string;
  err_type : ErrorType;
  err_code : Z;
  err_message : string;
  err_timestamp : string;
  err_from : string;
  err_to : list string;
}.

(** What [simpleParser] yields for one attachment; an absent property is
    [None]. *)
Record ParsedAttachment : Type := mkParsedAttachment {
  pa_filename : option string;
  pa_contentType : option string;
  pa_size : option Z;
  pa_content : list Byte.byte;
  pa_cid : option string;
}.

(** What [simpleParser] yields for a message.  The address fields hold
    [parsed.from?.text] and the like: [None] when the header is absent. *)
Record ParsedMail : Type := mkParsedMail {
  parsed_from : option string;
  parsed_to : option string;
  parsed_cc : option string;
  parsed_bcc : option string;
  parsed_subject : option string;
  parsed_text : option string;
  parsed_html : option string;
  parsed_attachments : option (list ParsedAttachment);
  parsed_headers : list (string * string);
}.

(** [await simpleParser(stream)] resolves, or throws an error whose
    [message] is kept. *)
Inductive ParseResult : Type :=
| Parsed (parsed : ParsedMail)
| ParseError (message : string).

(** [session.envelope]: [mailFrom?.address] and the addresses of [rcptTo]. *)
Record Envelope : Type := mkEnvelope {
  mailFrom : option string;
  rcptTo : option (list string);
}.

(** The SMTP reply given through [callback]. *)
Inductive SmtpReply : Type :=
| Ack
| Reject (responseCode : Z) (message : string).

(** [x || d] on a possibly absent string: the empty string is falsy. *)
Definition or_str (x : option string) (d : string) : string :=
  match x with
  | Some s => if String.eqb s "" then d else s
  | None => d
  end.

(** [x || d] on a possibly absent number: zero is falsy. *)
Definition or_num (x : option Z) (d : Z) : Z :=
  match x with
  | Some n => if n =? 0 then d else n
  | None => d
  end.

(** [x || null] on a possibly absent string. *)
Definition or_null (x : option string) : option string :=
  match x with
  | Some s => if String.eqb s "" then None else Some s
  | None => None
  end.

(** [Object.fromEntries(entries)]: a later entry overwrites an earlier one. *)
Definition fromEntries (entries : list (string * string)) : gmap string string :=
  foldl (fun m kv => <[kv.1 := kv.2]> m) ∅ entries.

Definition fromAddress (env : Envelope) : string :=
  or_str (mailFrom env) "unknown".

Definition toAddresses (env : Envelope) : list string :=
  default [] (rcptTo env).

(** ** Server state *)

Record ServerState : Type := mkServerState {
  emails : list Email;
  errors : list ErrorRecord;
  config : Config;
  lastEmailTime : Z;
  emailsInCurrentSecond : Z;
  uuid_calls : nat;            (* how many ids [uuidv4()] has handed out *)
}.

Definition initial_state : ServerState :=
  {| emails := []; errors := []; config := default_config;
     lastEmailTime := 0; emailsInCurrentSecond := 0; uuid_calls := 0 |}.

Definition quote : string := String (ascii_of_nat 34) EmptyString.

(** The reply of the attachment endpoints. *)
Inductive HttpResponse : Type :=
| NotFound (error : string)
| SendBuffer (contentType contentDisposition : string)
    (contentLength : nat) (body : list Byte.byte).

Definition find_email (id : string) (l : list Email) : option Email :=
  List.find (fun e => String.eqb (email_id e) id) l.

Definition find_attachment (id : string) (l : list Attachment) : option Attachment :=
  List.find (fun a => String.eqb (att_id a) id) l.

Definition serve_attachment (disposition : string)
    (emailId attachmentId : string) (s : ServerState) : HttpResponse :=
  match find_email emailId (emails s) with
  | None => NotFound "Email not found"
  | Some email =>
      match find_attachment attachmentId (email_attachments email) with
      | None => NotFound "Attachment not found"
      | Some attachment =>
          let buffer := Base64.decode (att_content attachment) in
          SendBuffer (att_contentType attachment)
            (disposition +:+ "; filename=" +:+ quote +:+
             att_filename attachment +:+ quote)
            (length buffer) buffer
      end
  end.

(** [GET /api/emails/:emailId/attachments/:attachmentId] *)
Definition get_attachment := serve_attachment "attachment".

(** [GET /api/emails/:emailId/attachments/:attachmentId/inline] *)
Definition get_attachment_inline := serve_attachment "inline".

(** ** The SMTP data handler and the other state changes *)

Section Server.

(** [uuidv4 k] is the id returned by the [k]-th call of [uuidv4()] since
    the process started. *)
Variable uuidv4 : nat → string.

(** The callback of [parsed.attachments?.map(...)], for the attachment at
    index [i], when [base] ids were handed out before the [map]. *)
Definition make_attachment (base : nat) (i : nat) (a : ParsedAttachment) : Attachment :=
  {| att_id := uuidv4 (base + i)%nat;
     att_filename := or_str (pa_filename a) "unnamed";
     att_contentType := or_str (pa_contentType a) "application/octet-stream";
     att_size := or_num (pa_size a) 0;
     att_content := Base64.encode (pa_content a);
     att_cid := or_null (pa_cid a) |}.

Definition make_attachments (base : nat) (l : option (list ParsedAttachment)) : list Attachment :=
  match l with
  | Some atts => imap (make_attachment base) atts
  | None => []
  end.

Definition make_email (env : Envelope) (parsed : ParsedMail) (ts : string)
    (base : nat) : Email :=
  let attachments := make_attachments base (parsed_attachments parsed) in
  {| email_id := uuidv4 (base + length attachments)%nat;
     email_from := or_str (parsed_from parsed) (fromAddress env);
     email_to := or_str (parsed_to parsed) (String.concat ", " (toAddresses env));
     email_cc := or_str (parsed_cc parsed) "";
     email_bcc := or_str (parsed_bcc parsed) "";
     email_subject := or_str (parsed_subject parsed) "(no subject)";
     email_text := or_str (parsed_text parsed) "";
     email_html := or_str (parsed_html parsed) "";
     email_attachments := attachments;
     email_headers := fromEntries (parsed_headers parsed);
     email_receivedAt := ts;
     email_size :=
       or_num ((fun t => Z.of_nat (String.length t)) <$> parsed_text parsed) 0 |}.

Definition record_error (e : ErrorRecord) (s : ServerState) : ServerState :=
  {| emails := emails s;
     errors := store_insert ERRORS_CAP e (errors s);
     config := config s;
     lastEmailTime := lastEmailTime s;
     emailsInCurrentSecond := emailsInCurrentSecond s;
     uuid_calls := S (uuid_calls s) |}.

(** How the first stretch of [onData] ends: the session goes on to the
    latency delay and the parser, or it is over. *)
Inductive Admission : Type :=
| Proceed
| Finished (reply : SmtpReply).

(** [onData] up to its first [await]: the rate limit check and, on a
    denial, the error record and the rejection.  [now] is [Date.now()]
    and [ts] is [new Date().toISOString()]. *)
Definition onData_admit (env : Envelope) (now : Z) (ts : string)
    (s : ServerState) : option (Admission * ServerState) :=
  rateLimitCheck ←
    checkRateLimit now (config s) (lastEmailTime s) (emailsInCurrentSecond s);
  match rateLimitCheck with
  | Denied code message _ =>
      let errorRecord :=
        {| err_id := uuidv4 (uuid_calls s);
           err_type := rate_limit;
           err_code := code;
           err_message := message;
           err_timestamp := ts;
           err_from := fromAddress env;
           err_to := toAddresses env |} in
      Some (Finished (Reject code message), record_error errorRecord s)
  | Allowed => Some (Proceed, s)
  end.

(** [onData] from the moment [await simpleParser(stream)] settles: on
    success the email is built and stored, on a thrown error the [catch]
    block records it.  [s] is the state at that moment. *)
Definition onData_ingest (env : Envelope) (res : ParseResult) (now : Z)
    (ts : string) (s : ServerState) : SmtpReply * ServerState :=
  match res with
  | Parsed parsed =>
      let email := make_email env parsed ts (uuid_calls s) in
      (Ack,
       {| emails := store_insert EMAILS_CAP email (emails s);
          errors := errors s;
          config := config s;
          lastEmailTime := now;
          emailsInCurrentSecond := emailsInCurrentSecond s + 1;
          uuid_calls := S (uuid_calls s + length (email_attachments email)) |})
  | ParseError msg =>
      let errorRecord :=
        {| err_id := uuidv4 (uuid_calls s);
           err_type := server_error;
           err_code := 451;
           err_message := "451 4.3.0 Server error: " +:+ msg;
           err_timestamp := ts;
           err_from := fromAddress env;
           err_to := toAddresses env |} in
      (Reject 451 ("451 4.3.0 Server error: " +:+ msg),
       record_error errorRecord s)
  end.

(** A whole session that no other work interleaves with: check, delay,
    parse, store.  The third component is the delay waited for. *)
Definition onData (env : Envelope) (now : Z) (ts : string) (rnd : Q)
    (res : ParseResult) (now' : Z) (ts' : string) (s : ServerState)
    : option (SmtpReply * Z * ServerState) :=
  '(adm, s1) ← onData_admit env now ts s;
  match adm with
  | Finished reply => Some (reply, 0, s1)
  | Proceed =>
      wait ← simulateLatency rnd (config s1);
      let '(reply, s2) := onData_ingest env res now' ts' s1 in
      Some (reply, delay_ms wait, s2)
  end.

(** [emails.splice(index, 1)] at the first index whose id matches;
    nothing happens when there is none (the 404 branch). *)
Fixpoint delete_email (id : string) (l : list Email) : list Email :=
  match l with
  | [] => []
  | e :: l' => if String.eqb (email_id e) id then l' else e :: delete_email id l'
  end.

(** Everything that changes the state of the process.  A session shows
    up as [SmtpData] (its rate limit check) and, when admitted, later as
    [SmtpParsed] (the parser settling); other events may come in between,
    which is what the [await]s of [onData] allow. *)
Inductive Event : Type :=
| SmtpData (env : Envelope) (now : Z) (ts : string)
| SmtpParsed (env : Envelope) (res : ParseResult) (now : Z) (ts : string)
| TimerTick
| DeleteEmail (id : string)
| DeleteAllEmails
| DeleteErrors
| PutConfig (body : jsval).

Definition step (ev : Event) (s : ServerState) : option ServerState :=
  match ev with
  | SmtpData env now ts => snd <$> onData_admit env now ts s
  | SmtpParsed env res now ts => Some (snd (onData_ingest env res now ts s))
  | TimerTick =>
      Some {| emails := emails s; errors := errors s; config := config s;
              lastEmailTime := lastEmailTime s;
              emailsInCurrentSecond := 0;
              uuid_calls := uuid_calls s |}
  | DeleteEmail id =>
      Some {| emails := delete_email id (emails s); errors := errors s;
              config := config s; lastEmailTime := lastEmailTime s;
              emailsInCurrentSecond := emailsInCurrentSecond s;
              uuid_calls := uuid_calls s |}
  | DeleteAllEmails =>
      Some {| emails := []; errors := errors s;
              config := config s; lastEmailTime := lastEmailTime s;
              emailsInCurrentSecond := emailsInCurrentSecond s;
              uuid_calls := uuid_calls s |}
  | DeleteErrors =>
      Some {| emails := emails s; errors := [];
              config := config s; lastEmailTime := lastEmailTime s;
              emailsInCurrentSecond := emailsInCurrentSecond s;
              uuid_calls := uuid_calls s |}
  | PutConfig body =>
      Some {| emails := emails s; errors := errors s;
              config := put_config body (config s);
              lastEmailTime := lastEmailTime s;
              emailsInCurrentSecond := emailsInCurrentSecond s;
              uuid_calls := uuid_calls s |}
  end.

Fixpoint run (evs : list Event) (s : ServerState) : option ServerState :=
  match evs with
  | [] => Some s
  | ev :: evs' => s' ← step ev s; run evs' s'
  end.

End Server.

(** ** The remaining routes of the API *)

(** A JSON reply: status 404 with [{ error }], or status 200 with a body. *)
Inductive JsonReply (A : Type) : Type :=
| Status404 (error : string)
| Json (body : A).
Arguments Status404 {A} error.
Arguments Json {A} body.

(** An attachment as [GET /api/emails/:id] lists it: no content. *)
Record AttachmentMeta : Type := mkAttachmentMeta {
  meta_id : string;
  meta_filename : string;
  meta_contentType : string;
  meta_size : Z;
  meta_cid : option string;
}.

(** [{ ...email, attachments: email.attachments.map(...) }] *)
Record EmailResponse : Type := mkEmailResponse {
  resp_id : string;
  resp_from : string;
  resp_to : string;
  resp_cc : string;
  resp_bcc : string;
  resp_subject : string;
  resp_text : string;
  resp_html : string;
  resp_attachments : list AttachmentMeta;
  resp_headers : gmap string string;
  resp_receivedAt : string;
  resp_size : Z;
}.

Definition attachment_meta (a : Attachment) : AttachmentMeta :=
  {| meta_id := att_id a;
     meta_filename := att_filename a;
     meta_contentType := att_contentType a;
     meta_size := att_size a;
     meta_cid := att_cid a |}.

Definition email_response (email : Email) : EmailResponse :=
  {| resp_id := email_id email;
     resp_from := email_from email;
     resp_to := email_to email;
     resp_cc := email_cc email;
     resp_bcc := email_bcc email;
     resp_subject := email_subject email;
     resp_text := email_text email;
     resp_html := email_html email;
     resp_attachments := attachment_meta <$> email_attachments email;
     resp_headers := email_headers email;
     resp_receivedAt := email_receivedAt email;
     resp_size := email_size email |}.

(** [GET /api/emails] *)
Definition get_emails (s : ServerState) : list Email := emails s.

(** [GET /api/emails/:id] *)
Definition get_email (id : string) (s : ServerState) : JsonReply EmailResponse :=
  match find_email id (emails s) with
  | None => Status404 "Email not found"
  | Some email => Json (email_response email)
  end.

(** [arr.findIndex(p)]; [None] stands for [-1]. *)
Fixpoint findIndex {A} (p : A → bool) (l : list A) : option nat :=
  match l with
  | [] => None
  | x :: l' => if p x then Some 0%nat else S <$> findIndex p l'
  end.

(** [arr.splice(index, 1)] *)
Definition splice1 {A} (index : nat) (l : list A) : list A :=
  take index l ++ drop (S index) l.

(** [DELETE /api/emails/:id]; the body [true] is [{ success: true }]. *)
Definition delete_email_route (id : string) (s : ServerState)
    : JsonReply bool * ServerState :=
  match findIndex (fun e => String.eqb (email_id e) id) (emails s) with
  | None => (Status404 "Email not found", s)
  | Some index =>
      (Json true,
       {| emails := splice1 index (emails s); errors := errors s;
          config := config s; lastEmailTime := lastEmailTime s;
          emailsInCurrentSecond := emailsInCurrentSecond s;
          uuid_calls := uuid_calls s |})
  end.

(** [GET /api/stats] *)
Record Stats : Type := mkStats {
  totalEmails : nat;
  totalErrors : nat;
  stats_emailsInCurrentSecond : Z;
  stats_config : Config;
}.

Definition get_stats (s : ServerState) : Stats :=
  {| totalEmails := length (emails s);
     totalErrors := length (errors s);
     stats_emailsInCurrentSecond := emailsInCurrentSecond s;
     stats_config := config s |}.

(** ** Sessions one after the other *)

(** What one session takes from outside: the envelope, the clock at the
    check, the random draw, the parser's result and the clock at the end. *)
Record SessionInput : Type := mkSessionInput {
  si_env : Envelope;
  si_now : Z;
  si_ts : string;
  si_rnd : Q;
  si_res : ParseResult;
  si_now' : Z;
  si_ts' : string;
}.

Definition is_parsed (r : ParseResult) : bool :=
  match r with
  | Parsed _ => true
  | ParseError _ => false
  end.

Section Sessions.
Variable uuidv4 : nat → string.

(** Sessions that run to their end one at a time, in order, with no
    timer tick in between; the replies come in the same order. *)
Fixpoint run_sessions (ins : list SessionInput) (s : ServerState)
    : option (list SmtpReply * ServerState) :=
  match ins with
  | [] => Some ([], s)
  | i :: rest =>
      '(reply, _, s1) ←
        onData uuidv4 (si_env i) (si_now i) (si_ts i) (si_rnd i) (si_res i)
          (si_now' i) (si_ts' i) s;
      '(replies, s2) ← run_sessions rest s1;
      Some (reply :: replies, s2)
  end.

(** The events of sessions that all pass their check before any of them
    gets its parser result. *)
Definition overlapping (ins : list SessionInput) : list Event :=
  ((fun i => SmtpData (si_env i) (si_now i) (si_ts i)) <$> ins)
  ++ ((fun i => SmtpParsed (si_env i) (si_res i) (si_now' i) (si_ts' i)) <$> ins).

End Sessions.

(** ** Invariants of the reachable states *)


(** Every stored email carries an id that the generator has handed out,
    no two stored emails share one, and no two attachments of one email
    do. *)
Definition ids_distinct (uuidv4 : nat → string) (s : ServerState) : Prop :=
  Forall (fun e => ∃ k, (k < uuid_calls s)%nat ∧ email_id e = uuidv4 k) (emails s)
  ∧ NoDup (email_id <$> emails s)
  ∧ Forall (fun e => NoDup (att_id <$> email_attachments e)) (emails s).

(** The five keys of the default configuration are there. *)
Definition config_populated (c : Config) : Prop :=
  is_Some (rateLimit c !! "enabled")
  ∧ is_Some (rateLimit c !! "maxPerSecond")
  ∧ is_Some (latency c !! "enabled")
  ∧ is_Some (latency c !! "minMs")
  ∧ is_Some (latency c !! "maxMs").

(** ** The web UI: the settings form and the sender's display name *)

(** What [parseInt] can return: not-a-number, an integer, or an infinity
    (for a digit string too long for a number). *)
Inductive jsnumber : Type :=
| JsNaN
| JsInt (z : Z)
| JsInfinity (negative : bool).

(** [r || d] on a number: [NaN] and zero are falsy. *)
Definition or_number (r : jsnumber) (d : Z) : jsnumber :=
  match r with
  | JsNaN => JsInt d
  | JsInt z => if z =? 0 then JsInt d else JsInt z
  | JsInfinity neg => JsInfinity neg
  end.

(** A number as it arrives through [JSON.stringify] and [express.json()]:
    JSON has no infinities and no not-a-number, they become [null]. *)
Definition number_to_json (r : jsnumber) : jsval :=
  match r with
  | JsInt z => JNum z
  | JsNaN | JsInfinity _ => JNull
  end.

(** The settings form as [saveConfig] reads it: the two check boxes and
    [parseInt] of the three number inputs. *)
Record ConfigForm : Type := mkConfigForm {
  form_rateLimitEnabled : bool;
  form_maxPerSecond : jsnumber;
  form_latencyEnabled : bool;
  form_minLatency : jsnumber;
  form_maxLatency : jsnumber;
}.

(** The request body that [saveConfig] sends to [PUT /api/config]. *)
Definition saveConfig_body (f : ConfigForm) : jsval :=
  JObj {[ "rateLimit" :=
            JObj {[ "enabled" := JBool (form_rateLimitEnabled f);
                    "maxPerSecond" :=
                      number_to_json (or_number (form_maxPerSecond f) 1) ]};
          "latency" :=
            JObj {[ "enabled" := JBool (form_latencyEnabled f);
                    "minMs" := number_to_json (or_number (form_minLatency f) 0);
                    "maxMs" := number_to_json (or_number (form_maxLatency f) 0) ]} ]}.

Definition is_finite (r : jsnumber) : bool :=
  match r with
  | JsInfinity _ => false
  | _ => true
  end.

(** The integer a form input stands for, [d] when it is empty, not a
    number, or zero. *)
Definition form_value (r : jsnumber) (d : Z) : Z :=
  match r with
  | JsInt z => if z =? 0 then d else z
  | _ => d
  end.

Definition dquote : ascii := ascii_of_nat 34.

(** The character class of the pattern in [extractName]: anything but a
    double quote and [<]. *)
Definition name_char (c : ascii) : bool :=
  negb (Ascii.eqb c dquote) && negb (Ascii.eqb c "<").

(** White space and line ends as [String.prototype.trim] strips them,
    among the characters a [string] here can hold. *)
Definition js_space (c : ascii) : bool :=
  let n := nat_of_ascii c in
  ((9 <=? n) && (n <=? 13) || (n =? 32) || (n =? 160))%nat.

Fixpoint span (p : ascii → bool) (cs : list ascii) : list ascii :=
  match cs with
  | [] => []
  | c :: cs' => if p c then c :: span p cs' else []
  end.

Fixpoint skip (p : ascii → bool) (cs : list ascii) : list ascii :=
  match cs with
  | [] => []
  | c :: cs' => if p c then skip p cs' else cs
  end.

(** [s.trim()] *)
Definition trim (cs : list ascii) : list ascii :=
  reverse (skip js_space (reverse (skip js_space cs))).

(** [extractName].  Its pattern reads: start of text, an optional double
    quote, a group of one or more characters other than a double quote
    and [<], then an optional double quote, optional white space and an
    optional [<].  It matches when, after an optional leading quote, at
    least one character of the group's class follows; the group is the
    longest run of such characters, and everything after the group may
    match nothing.  Without a match the argument is returned. *)
Definition extractName (from : string) : string :=
  let cs := list_ascii_of_string from in
  let rest :=
    match cs with
    | c :: cs' => if Ascii.eqb c dquote then cs' else cs
    | [] => []
    end in
  match span name_char rest with
  | [] => from
  | group => string_of_list_ascii (trim group)
  end.

(** ** Views of the state and of an update, used in the statements *)


(** The rate limiter's own state: the counter of the current window and
    the time of the last accepted message. *)
Definition rate_state (s : ServerState) : Z * Z :=
  (emailsInCurrentSecond s, lastEmailTime s).

(** The value an update body supplies for field [f] of group [g]: the
    group must be there and truthy, and the field one of its own
    properties. *)
Definition supplied (body : jsval) (g f : string) : option jsval :=
  match get_prop body g with
  | Some v => if truthy (Some v) then own_props v !! f else None
  | None => None
  end.

(** The merge in the words of the specification: a supplied sub-field
    overwrites, any other keeps its prior value. *)
Definition merged_field (body : jsval) (g f : string)
    (prior : gmap string jsval) : option jsval :=
  match supplied body g f with
  | Some x => Some x
  | None => prior !! f
  end.

(** The three numeric fields of the configuration all hold numbers. *)
Definition numeric_fields_ok (c : Config) : bool :=
  is_number (rateLimit c !! "maxPerSecond")
  && is_number (latency c !! "minMs")
  && is_number (latency c !! "maxMs").




(** ** Sample inputs *)

Definition sample_uuid (k : nat) : string := "id-" +:+ pretty k.

Definition sample_envelope : Envelope :=
  {| mailFrom := Some "app@example.test";
     rcptTo := Some ["dev@example.test"; "qa@example.test"] |}.

Definition sample_parsed_attachment : ParsedAttachment :=
  {| pa_filename := None;
     pa_contentType := Some "text/plain";
     pa_size := Some 5;
     pa_content := [Byte.x68; Byte.x65; Byte.x6c; Byte.x6c; Byte.x6f];
     pa_cid := None |}.

Definition sample_parsed : ParsedMail :=
  {| parsed_from := Some "App <app@example.test>";
     parsed_to := None;
     parsed_cc := None;
     parsed_bcc := None;
     parsed_subject := None;
     parsed_text := Some "hello";
     parsed_html := None;
     parsed_attachments :=
       Some [sample_parsed_attachment;
             {| pa_filename := Some "logo.png"; pa_contentType := None;
                pa_size := None; pa_content := [Byte.xff; Byte.x00];
                pa_cid := Some "logo" |}];
     parsed_headers := [("subject", "x"); ("x-test", "1")] |}.

Definition sample_email : Email :=
  make_email sample_uuid sample_envelope sample_parsed "2024-01-01T00:00:00.000Z" 0.

Definition sample_error : ErrorRecord :=
  {| err_id := "e"; err_type := server_error; err_code := 451;
     err_message := "451 4.3.0 Server error: boom";
     err_timestamp := "2024-01-01T00:00:00.000Z";
     err_from := "unknown"; err_to := [] |}.

Definition sample_events : list Event :=
  [SmtpData sample_envelope 1700000000250 "t0";
   SmtpParsed sample_envelope (Parsed sample_parsed) 1700000000300 "t1";
   SmtpData sample_envelope 1700000000400 "t2";
   SmtpParsed sample_envelope (ParseError "boom") 1700000000450 "t3";
   PutConfig (JObj {[ "latency" := JObj {[ "enabled" := JBool true ]} ]});
   TimerTick;
   DeleteEmail "id-2"].

(** The update [{latency: {enabled: true}}]. *)
Definition enable_latency_body : jsval :=
  JObj {[ "latency" := JObj {[ "enabled" := JBool true ]} ]}.

(** The update [{rateLimit: {maxPerSecond: "abc"}}]. *)
Definition text_limit_body : jsval :=
  JObj {[ "rateLimit" := JObj {[ "maxPerSecond" := JStr "abc" ]} ]}.


Definition sample_session (now : Z) : SessionInput :=
  {| si_env := sample_envelope; si_now := now; si_ts := "t"; si_rnd := 1 # 2;
     si_res := Parsed sample_parsed; si_now' := now + 20; si_ts' := "u" |}.

Definition sample_form : ConfigForm :=
  {| form_rateLimitEnabled := true; form_maxPerSecond := JsNaN;
     form_latencyEnabled := true; form_minLatency := JsInt 0;
     form_maxLatency := JsInt 250 |}.

Definition swapped_config : Config :=
  {| rateLimit := rateLimit default_config;
     latency := {[ "enabled" := JBool true; "minMs" := JNum 250;
                   "maxMs" := JNum 100 ]} |}.

(** * Properties *)

(** ** Bounded stores *)

Section BoundedStore.
Context {A : Type}.
Implicit Types (l xs : list A) (x : A) (cap : nat).

Lemma pop_take l : pop l = take (pred (length l)) l.
Proof. unfold pop. apply removelast_firstn_len. Qed.

Lemma store_insert_take cap x l :
  (length l ≤ cap)%nat → store_insert cap x l = take cap (x :: l).
Proof.
  intros Hlen. unfold store_insert.
  destruct (Nat.ltb_spec cap (length (x :: l))) as [Hlt | Hge].
  - rewrite pop_take. f_equal. simpl in *. lia.
  - symmetry. apply take_ge. exact Hge.
Qed.

Lemma store_insert_length cap x l :
  (length l ≤ cap)%nat → (length (store_insert cap x l) ≤ cap)%nat.
Proof.
  intros Hlen. rewrite store_insert_take by exact Hlen.
  rewrite length_take. lia.
Qed.


Lemma take_app_take cap (a b : list A) :
  take cap (a ++ take cap b) = take cap (a ++ b).
Proof.
  rewrite !take_app, take_take. do 2 f_equal. lia.
Qed.

Lemma insert_all_take cap xs l :
  (length l ≤ cap)%nat → insert_all cap xs l = take cap (reverse xs ++ l).
Proof.
  revert l. induction xs as [| x xs IH]; intros l Hlen.
  - simpl. symmetry. apply take_ge. exact Hlen.
  - unfold insert_all in *. simpl.
    rewrite IH by (apply store_insert_length; exact Hlen).
    rewrite store_insert_take by exact Hlen.
    rewrite take_app_take, reverse_cons, <- app_assoc. reflexivity.
Qed.



End BoundedStore.








(** ** Admission check *)

Lemma checkRateLimit_disabled now cfg last count :
  truthy (rateLimit cfg !! "enabled") = false →
  checkRateLimit now cfg last count = Some Allowed.
Proof. intros Hoff. unfold checkRateLimit. by rewrite Hoff. Qed.

Lemma checkRateLimit_enabled now cfg last count n :
  truthy (rateLimit cfg !! "enabled") = true →
  rateLimit cfg !! "maxPerSecond" = Some (JNum n) →
  checkRateLimit now cfg last count =
    Some (if count >=? n
          then Denied 421 (rate_limit_message n) (1000 - Z.rem now 1000)
          else Allowed).
Proof.
  intros Hon Hmax. unfold checkRateLimit. rewrite Hon, Hmax. simpl.
  by destruct (count >=? n).
Qed.

Lemma retry_after_range now :
  0 ≤ now → Z.rem now 1000 = now mod 1000 ∧ 1 ≤ 1000 - (now mod 1000) ≤ 1000.
Proof.
  intros Hnow. split.
  - apply Z.rem_mod_nonneg; lia.
  - pose proof (Z.mod_pos_bound now 1000 ltac:(lia)). lia.
Qed.

(** C2. The admission check meets its contract.  With rate limiting
    disabled it allows.  With rate limiting enabled and [maxPerSecond]
    holding the number [n]: once the counter has reached [n] it denies with
    code 421, a message that spells out [n], and a retry delay of
    [1000 - (now mod 1000)] milliseconds, which lies in [0, 1000]; below
    [n] it allows.  [now] is a time of the clock, not negative. *)
Theorem checkRateLimit_contract (now : Z) (cfg : Config) (last count : Z) :
  0 ≤ now →
  (truthy (rateLimit cfg !! "enabled") = false →
   checkRateLimit now cfg last count = Some Allowed)
  ∧ (∀ n : Z,
       truthy (rateLimit cfg !! "enabled") = true →
       rateLimit cfg !! "maxPerSecond" = Some (JNum n) →
       (n ≤ count →
        checkRateLimit now cfg last count =
          Some (Denied 421 (rate_limit_message n) (1000 - (now mod 1000)))
        ∧ 0 ≤ 1000 - (now mod 1000) ≤ 1000
        ∧ ∃ pre post : string, rate_limit_message n = pre +:+ pretty n +:+ post)
       ∧ (count < n → checkRateLimit now cfg last count = Some Allowed)).
Proof.
  intros Hnow. split; [apply checkRateLimit_disabled |].
  intros n Hon Hmax.
  rewrite (checkRateLimit_enabled now cfg last count n Hon Hmax).
  destruct (retry_after_range now Hnow) as [Hrem Hrange].
  split.
  - intros Hreach.
    assert ((count >=? n) = true) as -> by lia.
    rewrite Hrem. split; [reflexivity |]. split; [lia |].
    eexists _, _. reflexivity.
  - intros Hbelow.
    by assert ((count >=? n) = false) as -> by lia.
Qed.

Lemma checkRateLimit_contract_witness :
  checkRateLimit 1700000000250 default_config 0 1 =
    Some (Denied 421 (rate_limit_message 1) 750)
  ∧ checkRateLimit 1700000000250 default_config 0 0 = Some Allowed.
Proof.
  pose proof (checkRateLimit_contract 1700000000250 default_config 0 1
                ltac:(lia)) as [_ Hdeny].
  pose proof (checkRateLimit_contract 1700000000250 default_config 0 0
                ltac:(lia)) as [_ Hallow].
  split.
  - exact (proj1 (proj1 (Hdeny 1 eq_refl eq_refl) ltac:(lia))).
  - exact (proj2 (Hallow 1 eq_refl eq_refl) ltac:(lia)).
Defined.

(** ** Sessions: the rate counter and the error records *)

Lemma onData_admit_inv uuidv4 env now ts s adm s1 :
  onData_admit uuidv4 env now ts s = Some (adm, s1) →
  (adm = Proceed ∧ s1 = s)
  ∨ (∃ n : Z,
       truthy (rateLimit (config s) !! "enabled") = true
       ∧ rateLimit (config s) !! "maxPerSecond" = Some (JNum n)
       ∧ n ≤ emailsInCurrentSecond s
       ∧ adm = Finished (Reject 421 (rate_limit_message n))
       ∧ s1 = record_error
                {| err_id := uuidv4 (uuid_calls s);
                   err_type := rate_limit;
                   err_code := 421;
                   err_message := rate_limit_message n;
                   err_timestamp := ts;
                   err_from := fromAddress env;
                   err_to := toAddresses env |} s).
Proof.
  unfold onData_admit, checkRateLimit. intros H.
  destruct (truthy (rateLimit (config s) !! "enabled")) eqn:Hon; simpl in H.
  - destruct (rateLimit (config s) !! "maxPerSecond") as [[| | n | | |] |] eqn:Hmax;
      simpl in H; try discriminate.
    destruct (Z.geb_spec (emailsInCurrentSecond s) n) as [Hge | Hlt];
      simpl in H; inversion H; subst; clear H.
    + right. exists n. repeat split; try reflexivity. lia.
    + left. split; reflexivity.
  - inversion H; subst. left. split; reflexivity.
Qed.


(** C3. The rate counter and the last-accepted time move only when a
    message completes ingestion.  The rate limit check, whether it admits
    or denies, leaves both as they were; a parse failure leaves both as
    they were; a successful ingestion adds exactly one to the counter and
    sets the last-accepted time to the clock.  So a whole session changes
    them exactly when it ends in an acknowledgement, and among all the
    state changes of the server only the successful ingestion and the
    window timer touch them. *)
Theorem rate_state_advanced_only_on_success (uuidv4 : nat → string)
    (env : Envelope) (now : Z) (ts : string) (rnd : Q) (res : ParseResult)
    (now' : Z) (ts' : string) (s : ServerState) :
  (∀ adm s1, onData_admit uuidv4 env now ts s = Some (adm, s1) →
             rate_state s1 = rate_state s)
  ∧ (∀ msg, rate_state (snd (onData_ingest uuidv4 env (ParseError msg) now' ts' s))
            = rate_state s)
  ∧ (∀ parsed,
       rate_state (snd (onData_ingest uuidv4 env (Parsed parsed) now' ts' s))
       = (emailsInCurrentSecond s + 1, now'))
  ∧ (∀ reply wait s',
       onData uuidv4 env now ts rnd res now' ts' s = Some (reply, wait, s') →
       match reply with
       | Ack => rate_state s' = (emailsInCurrentSecond s + 1, now')
       | Reject _ _ => rate_state s' = rate_state s
       end)
  ∧ (∀ ev s',
       step uuidv4 ev s = Some s' →
       match ev with
       | SmtpParsed _ (Parsed _) t _ =>
           rate_state s' = (emailsInCurrentSecond s + 1, t)
       | TimerTick => rate_state s' = (0, lastEmailTime s)
       | _ => rate_state s' = rate_state s
       end).
Proof.
  assert (Hadm : ∀ adm s1, onData_admit uuidv4 env now ts s = Some (adm, s1) →
                           rate_state s1 = rate_state s).
  { intros adm s1 H.
    destruct (onData_admit_inv _ _ _ _ _ _ _ H) as [[_ ->] | (n & _ & _ & _ & _ & ->)];
      reflexivity. }
  split; [exact Hadm |].
  split; [reflexivity |].
  split; [reflexivity |].
  split.
  - intros reply wait s' H. unfold onData in H.
    destruct (onData_admit uuidv4 env now ts s) as [[adm s1] |] eqn:Ha;
      simpl in H; [| discriminate].
    destruct (onData_admit_inv _ _ _ _ _ _ _ Ha) as [[-> ->] | (n & _ & _ & _ & -> & ->)].
    + destruct (simulateLatency rnd (config s)) as [w |]; simpl in H; [| discriminate].
      destruct res as [parsed | msg]; simpl in H; inversion H; subst; reflexivity.
    + inversion H; subst. reflexivity.
  - intros ev s' H.
    destruct ev as [env0 now0 ts0 | env0 res0 now0 ts0 | | id | | | body];
      simpl in H.
    + destruct (onData_admit uuidv4 env0 now0 ts0 s) as [[adm s1] |] eqn:Ha;
        simpl in H; inversion H; subst.
      destruct (onData_admit_inv _ _ _ _ _ _ _ Ha) as [[_ ->] | (n & _ & _ & _ & _ & ->)];
        reflexivity.
    + inversion H; subst. destruct res0; reflexivity.
    + inversion H; subst. reflexivity.
    + inversion H; subst. reflexivity.
    + inversion H; subst. reflexivity.
    + inversion H; subst. reflexivity.
    + inversion H; subst. reflexivity.
Qed.



(** ** Configuration update *)

Lemma spread2_lookup (a : gmap string jsval) (v : jsval) (f : string) :
  spread2 a v !! f =
    match own_props v !! f with Some x => Some x | None => a !! f end.
Proof.
  unfold spread2. rewrite lookup_union.
  destruct (own_props v !! f), (a !! f); reflexivity.
Qed.

Lemma put_config_rateLimit body c f :
  rateLimit (put_config body c) !! f = merged_field body "rateLimit" f (rateLimit c).
Proof.
  unfold put_config, merged_field, supplied.
  destruct (get_prop body "rateLimit") as [v |] eqn:Hr;
    destruct (get_prop body "latency") as [w |] eqn:Hl;
    repeat match goal with
           | |- context [truthy ?x] => destruct (truthy x) eqn:?
           end; simpl; rewrite ?spread2_lookup; reflexivity.
Qed.

Lemma put_config_latency body c f :
  latency (put_config body c) !! f = merged_field body "latency" f (latency c).
Proof.
  unfold put_config, merged_field, supplied.
  destruct (get_prop body "rateLimit") as [v |] eqn:Hr;
    destruct (get_prop body "latency") as [w |] eqn:Hl;
    repeat match goal with
           | |- context [truthy ?x] => destruct (truthy x) eqn:?
           end; simpl; rewrite ?spread2_lookup; reflexivity.
Qed.

Lemma put_config_rateLimit_absent body c :
  truthy (get_prop body "rateLimit") = false →
  rateLimit (put_config body c) = rateLimit c.
Proof.
  intros Hr. apply map_eq. intros f. rewrite put_config_rateLimit.
  unfold merged_field, supplied.
  destruct (get_prop body "rateLimit") as [v |]; [| reflexivity].
  by rewrite Hr.
Qed.

Lemma put_config_latency_absent body c :
  truthy (get_prop body "latency") = false →
  latency (put_config body c) = latency c.
Proof.
  intros Hl. apply map_eq. intros f. rewrite put_config_latency.
  unfold merged_field, supplied.
  destruct (get_prop body "latency") as [v |]; [| reflexivity].
  by rewrite Hl.
Qed.

Lemma enable_latency_props :
  get_prop enable_latency_body "rateLimit" = None
  ∧ get_prop enable_latency_body "latency" = Some (JObj {[ "enabled" := JBool true ]}).
Proof.
  unfold enable_latency_body, get_prop. split.
  - by apply lookup_singleton_ne.
  - by apply lookup_singleton_eq.
Qed.

(** C5. The configuration update is a shallow merge per group, with a
    frame.  For every prior configuration, update body and field name:
    in each group the field holds the value the update's group supplies
    for it, or else its prior value; a group that the update does not
    contain (or contains as a falsy value) is left as it was.  In
    particular the update [{latency: {enabled: true}}] sets
    [latency.enabled] to [true] and changes nothing else: [rateLimit] is
    the prior one and every other field of [latency] reads as before. *)
Theorem put_config_shallow_merge (body : jsval) (c : Config) (f : string) :
  rateLimit (put_config body c) !! f = merged_field body "rateLimit" f (rateLimit c)
  ∧ latency (put_config body c) !! f = merged_field body "latency" f (latency c)
  ∧ (truthy (get_prop body "rateLimit") = false →
     rateLimit (put_config body c) = rateLimit c)
  ∧ (truthy (get_prop body "latency") = false →
     latency (put_config body c) = latency c)
  ∧ rateLimit (put_config enable_latency_body c) = rateLimit c
  ∧ latency (put_config enable_latency_body c) !! "enabled" = Some (JBool true)
  ∧ (f ≠ "enabled" →
     latency (put_config enable_latency_body c) !! f = latency c !! f)
  ∧ put_config enable_latency_body c =
      {| rateLimit := rateLimit c;
         latency := <[ "enabled" := JBool true ]> (latency c) |}.
Proof.
  destruct enable_latency_props as [Hr Hl].
  assert (Heq : put_config enable_latency_body c =
                {| rateLimit := rateLimit c;
                   latency := <[ "enabled" := JBool true ]> (latency c) |}).
  { unfold put_config. rewrite Hr, Hl. simpl. unfold spread2. simpl.
    by rewrite insert_union_singleton_l. }
  split; [apply put_config_rateLimit |].
  split; [apply put_config_latency |].
  split; [apply put_config_rateLimit_absent |].
  split; [apply put_config_latency_absent |].
  rewrite Heq. simpl.
  split; [reflexivity |].
  split; [apply lookup_insert_eq |].
  split; [| reflexivity].
  intros Hne. by apply lookup_insert_ne.
Qed.

(** C10. An update body with neither a [rateLimit] nor a [latency] key
    changes nothing: the configuration after it, which is also the
    configuration sent back, is the prior one. *)
Theorem put_config_no_groups_identity (body : jsval) (c : Config) :
  get_prop body "rateLimit" = None →
  get_prop body "latency" = None →
  put_config body c = c ∧ put_config_response body c = c.
Proof.
  intros Hr Hl. unfold put_config_response, put_config.
  rewrite Hr, Hl. split; reflexivity.
Qed.

Lemma put_config_no_groups_identity_witness :
  put_config (JObj {[ "verbose" := JBool true ]}) default_config = default_config
  ∧ put_config_response (JObj {[ "verbose" := JBool true ]}) default_config
    = default_config.
Proof.
  apply (put_config_no_groups_identity (JObj {[ "verbose" := JBool true ]})
           default_config); reflexivity.
Defined.





(** ** Latency *)




(** ** Base64 round trip *)

Module Base64Facts.
Import Base64.





















End Base64Facts.

(** ** Ingestion and the attachment endpoints *)


Lemma store_insert_head {A} (cap : nat) (x : A) (l : list A) :
  (0 < cap)%nat → ∃ t, store_insert cap x l = x :: t.
Proof.
  intros Hcap. unfold store_insert.
  destruct (Nat.ltb_spec cap (length (x :: l))) as [Hlt | Hge]; [| by eexists].
  destruct l as [| y l]; simpl in Hlt; [lia |].
  unfold pop. by eexists.
Qed.

Lemma make_attachments_lookup uuidv4 base atts i pa :
  atts !! i = Some pa →
  make_attachments uuidv4 base (Some atts) !! i
    = Some (make_attachment uuidv4 base i pa).
Proof.
  intros Hi. unfold make_attachments. by rewrite list_lookup_imap, Hi.
Qed.

Lemma make_attachments_length uuidv4 base atts :
  length (make_attachments uuidv4 base (Some atts)) = length atts.
Proof. unfold make_attachments. apply length_imap. Qed.


Lemma find_new_email uuidv4 env parsed now ts s :
  find_email (email_id (make_email uuidv4 env parsed ts (uuid_calls s)))
    (emails (snd (onData_ingest uuidv4 env (Parsed parsed) now ts s)))
  = Some (make_email uuidv4 env parsed ts (uuid_calls s)).
Proof.
  simpl emails.
  destruct (store_insert_head EMAILS_CAP
              (make_email uuidv4 env parsed ts (uuid_calls s)) (emails s))
    as [t Ht]; [unfold EMAILS_CAP; lia |].
  rewrite Ht. unfold find_email. cbn [List.find].
  by rewrite String.eqb_refl.
Qed.




Lemma make_attachments_ids uuidv4 base atts :
  att_id <$> make_attachments uuidv4 base (Some atts)
    = (fun i => uuidv4 (base + i)%nat) <$> seq 0 (length atts).
Proof.
  apply list_eq. intros i.
  rewrite !list_lookup_fmap. unfold make_attachments.
  rewrite list_lookup_imap.
  destruct (atts !! i) as [pa |] eqn:Hi; simpl.
  - apply lookup_lt_Some in Hi. by rewrite lookup_seq_lt.
  - apply lookup_ge_None in Hi. by rewrite lookup_seq_ge.
Qed.


(** ** Worked sessions *)

(** With the default configuration (one message per second), two sessions
    in the same window: the first is acknowledged and advances the counter,
    the second is rejected with 421, a retry delay of 600 ms, one error
    record, and the counter as it was. *)
Example second_message_in_window_rejected :
  ∃ s1 s2,
    onData sample_uuid sample_envelope 1700000000250 "t0" (1 # 2)
      (Parsed sample_parsed) 1700000000300 "t1" initial_state
      = Some (Ack, 0, s1)
    ∧ rate_state s1 = (1, 1700000000300)
    ∧ checkRateLimit 1700000000400 (config s1) (lastEmailTime s1)
        (emailsInCurrentSecond s1)
      = Some (Denied 421 (rate_limit_message 1) 600)
    ∧ onData sample_uuid sample_envelope 1700000000400 "t2" (1 # 2)
        (Parsed sample_parsed) 1700000000450 "t3" s1
      = Some (Reject 421 (rate_limit_message 1), 0, s2)
    ∧ rate_state s2 = rate_state s1
    ∧ length (emails s2) = 1%nat
    ∧ length (errors s2) = 1%nat.
Proof. eexists _, _. vm_compute. repeat split. Qed.

(** A parse failure after admission: rejected with 451, one error record,
    no email, and the rate counter untouched. *)
Example parse_failure_session :
  ∃ s1,
    onData sample_uuid sample_envelope 1700000000250 "t0" (1 # 2)
      (ParseError "boom") 1700000000300 "t1" initial_state
      = Some (Reject 451 "451 4.3.0 Server error: boom", 0, s1)
    ∧ rate_state s1 = rate_state initial_state
    ∧ emails s1 = []
    ∧ (err_type <$> errors s1) = [server_error].
Proof. eexists. vm_compute. repeat split. Qed.

(** * Further properties of the server *)

(** ** Lookup and deletion by id *)

Lemma findIndex_split {A} (p : A → bool) (l : list A) :
  match findIndex p l with
  | None => List.find p l = None ∧ Forall (fun x => p x = false) l
  | Some i =>
      ∃ before e after,
        l = before ++ e :: after
        ∧ length before = i
        ∧ Forall (fun x => p x = false) before
        ∧ p e = true
        ∧ List.find p l = Some e
        ∧ splice1 i l = before ++ after
  end.
Proof.
  induction l as [| x l IH]; simpl; [by split |].
  destruct (p x) eqn:Hpx; simpl.
  - exists [], x, l. unfold splice1. simpl. rewrite drop_0. by repeat split.
  - destruct (findIndex p l) as [i |]; simpl.
    + destruct IH as (before & e & after & -> & Hlen & Hbefore & Hpe & Hfind & Hsplice).
      exists (x :: before), e, after. simpl. rewrite Hlen.
      repeat split; try done.
      * by constructor.
      * unfold splice1 in *. simpl. by rewrite Hsplice.
    + destruct IH as [Hfind Hall]. split; [done |]. by constructor.
Qed.

Lemma find_email_app_miss id (before : list Email) (rest : list Email) :
  Forall (fun x => String.eqb (email_id x) id = false) before →
  find_email id (before ++ rest) = find_email id rest.
Proof.
  induction 1 as [| x before Hx _ IH]; simpl; [done |].
  unfold find_email in *. simpl. by rewrite Hx.
Qed.

Lemma find_email_remove_other id id' (before after : list Email) (e : Email) :
  String.eqb (email_id e) id = true →
  id' ≠ id →
  find_email id' (before ++ after) = find_email id' (before ++ e :: after).
Proof.
  intros He Hne. induction before as [| x before IH]; simpl.
  - unfold find_email. simpl.
    apply String.eqb_eq in He.
    destruct (String.eqb_spec (email_id e) id'); [congruence | done].
  - unfold find_email in *. simpl.
    by destruct (String.eqb (email_id x) id').
Qed.

Lemma splice_first_is_delete_email id (l : list Email) :
  match findIndex (fun e => String.eqb (email_id e) id) l with
  | None => delete_email id l = l
  | Some i => delete_email id l = splice1 i l
  end.
Proof.
  induction l as [| x l IH]; simpl; [done |].
  destruct (String.eqb (email_id x) id) eqn:Hx; simpl.
  - unfold splice1. simpl. by rewrite drop_0.
  - destruct (findIndex _ l) as [i |]; simpl.
    + unfold splice1 in *. simpl. by rewrite IH.
    + by rewrite IH.
Qed.

(** X1. [DELETE /api/emails/:id] removes the first email with that id and
    nothing else.  Without such an email it answers 404 and leaves the
    state as it is.  With one, it answers success; the store is the old
    one with that single entry taken out, the others in their order, so
    it is exactly one shorter and every other id finds what it found
    before; errors, configuration and the rate limiter are untouched. *)
Theorem delete_email_route_removes_first_match (id : string) (s : ServerState) :
  (find_email id (emails s) = None →
   delete_email_route id s = (Status404 "Email not found", s))
  ∧ (∀ e, find_email id (emails s) = Some e →
       ∃ before after,
         emails s = before ++ e :: after
         ∧ Forall (fun x => email_id x ≠ id) before
         ∧ email_id e = id
         ∧ fst (delete_email_route id s) = Json true
         ∧ emails (snd (delete_email_route id s)) = before ++ after
         ∧ S (length (emails (snd (delete_email_route id s)))) = length (emails s)
         ∧ (∀ id', id' ≠ id →
                   find_email id' (emails (snd (delete_email_route id s)))
                   = find_email id' (emails s))
         ∧ errors (snd (delete_email_route id s)) = errors s
         ∧ config (snd (delete_email_route id s)) = config s
         ∧ rate_state (snd (delete_email_route id s)) = rate_state s)
  ∧ emails (snd (delete_email_route id s)) = delete_email id (emails s).
Proof.
  unfold delete_email_route, find_email.
  pose proof (findIndex_split (fun e => String.eqb (email_id e) id) (emails s)) as Hsplit.
  pose proof (splice_first_is_delete_email id (emails s)) as Hdel.
  destruct (findIndex _ (emails s)) as [i |].
  - destruct Hsplit as (before & e0 & after & Heq & Hlen & Hbefore & Hpe & Hfind & Hsplice).
    split; [intros Hnone; congruence |].
    split; [| by rewrite Hdel].
    intros e He. rewrite Hfind in He. inversion He; subst e0; clear He.
    exists before, after. simpl.
    split; [exact Heq |].
    split.
    { eapply Forall_impl; [exact Hbefore |]. intros x Hx.
      by apply String.eqb_neq. }
    split; [by apply String.eqb_eq |].
    split; [done |].
    split; [exact Hsplice |].
    split; [rewrite Hsplice, Heq, !length_app; simpl; lia |].
    split; [| done].
    intros id' Hne. rewrite Hsplice, Heq.
    by apply (find_email_remove_other id).
  - destruct Hsplit as [Hfind _].
    split; [done |].
    split; [intros e He; congruence |].
    by rewrite Hdel.
Qed.

(** ** Ids in the reachable states *)

Lemma Forall_sublist {A} (P : A → Prop) (l1 l2 : list A) :
  l1 `sublist_of` l2 → Forall P l2 → Forall P l1.
Proof.
  intros Hsub Hall. apply Forall_forall. intros x Hx.
  rewrite Forall_forall in Hall. apply Hall.
  by apply (sublist_subseteq _ _ Hsub).
Qed.

Lemma store_insert_sublist {A} (cap : nat) (x : A) (l : list A) :
  store_insert cap x l `sublist_of` x :: l.
Proof.
  unfold store_insert. destruct (cap <? length (x :: l))%nat; [| done].
  rewrite pop_take. apply sublist_take.
Qed.

Lemma delete_email_sublist id (l : list Email) : delete_email id l `sublist_of` l.
Proof.
  induction l as [| e l IH]; simpl; [done |].
  destruct (String.eqb (email_id e) id).
  - by apply sublist_cons.
  - by apply sublist_skip.
Qed.



Section Ids.
Variable uuidv4 : nat → string.
Hypothesis uuidv4_inj : Inj (=) (=) uuidv4.

Lemma ids_distinct_shrink (s : ServerState) (l : list Email) (calls : nat) :
  ids_distinct uuidv4 s →
  l `sublist_of` emails s →
  (uuid_calls s ≤ calls)%nat →
  ids_distinct uuidv4
    {| emails := l; errors := errors s; config := config s;
       lastEmailTime := lastEmailTime s;
       emailsInCurrentSecond := emailsInCurrentSecond s;
       uuid_calls := calls |}.
Proof.
  intros (Hissued & Hnd & Hatts) Hsub Hcalls. repeat split; simpl.
  - apply (Forall_sublist _ _ _ Hsub).
    eapply Forall_impl; [exact Hissued |].
    intros e (k & Hk & He). exists k. split; [lia | done].
  - eapply sublist_NoDup; [exact Hnd |]. by apply fmap_sublist.
  - by apply (Forall_sublist _ _ _ Hsub).
Qed.

Lemma make_attachments_NoDup base l :
  NoDup (att_id <$> make_attachments uuidv4 base l).
Proof.
  destruct l as [atts |]; [| apply NoDup_nil_2].
  rewrite make_attachments_ids.
  apply NoDup_fmap_2; [| apply NoDup_seq].
  intros j k Hjk. apply uuidv4_inj in Hjk. lia.
Qed.

Lemma ids_distinct_ingest env parsed now ts s :
  ids_distinct uuidv4 s →
  ids_distinct uuidv4 (snd (onData_ingest uuidv4 env (Parsed parsed) now ts s)).
Proof.
  intros (Hissued & Hnd & Hatts). simpl.
  pose proof (store_insert_sublist EMAILS_CAP
                (make_email uuidv4 env parsed ts (uuid_calls s)) (emails s)) as Hsub.
  repeat split; simpl.
  - apply (Forall_sublist _ _ _ Hsub). constructor.
    + eexists. split; [| reflexivity]. simpl. lia.
    + eapply Forall_impl; [exact Hissued |].
      intros e (k & Hk & He). exists k. split; [lia | done].
  - eapply sublist_NoDup; [| by apply fmap_sublist].
    rewrite fmap_cons. apply NoDup_cons. split; [| exact Hnd].
    intros Hin. apply list_elem_of_fmap in Hin as (e & Heq & He).
    rewrite Forall_forall in Hissued.
    destruct (Hissued e He) as (k & Hk & Hid).
    simpl in Heq. rewrite Hid in Heq. apply uuidv4_inj in Heq. lia.
  - apply (Forall_sublist _ _ _ Hsub). constructor; [| exact Hatts].
    apply make_attachments_NoDup.
Qed.

Lemma ids_distinct_step ev s s' :
  ids_distinct uuidv4 s → step uuidv4 ev s = Some s' → ids_distinct uuidv4 s'.
Proof.
  intros Hinv Hstep.
  destruct ev as [env now ts | env res now ts | | id | | | body]; simpl in Hstep.
  - destruct (onData_admit uuidv4 env now ts s) as [[adm s1] |] eqn:Ha;
      simpl in Hstep; inversion Hstep; subst; clear Hstep.
    destruct (onData_admit_inv _ _ _ _ _ _ _ Ha) as [[_ ->] | (n & _ & _ & _ & _ & ->)];
      [done |].
    apply (ids_distinct_shrink s (emails s)); [done | done | lia].
  - inversion Hstep; subst; clear Hstep. destruct res as [parsed | msg].
    + by apply ids_distinct_ingest.
    + apply (ids_distinct_shrink s (emails s)); [done | done | lia].
  - inversion Hstep; subst. by apply (ids_distinct_shrink s (emails s)).
  - inversion Hstep; subst.
    apply (ids_distinct_shrink s); [done | apply delete_email_sublist | done].
  - inversion Hstep; subst.
    apply (ids_distinct_shrink s); [done | apply sublist_nil_l | done].
  - inversion Hstep; subst. by apply (ids_distinct_shrink s (emails s)).
  - inversion Hstep; subst. by apply (ids_distinct_shrink s (emails s)).
Qed.

Lemma ids_distinct_run evs s s' :
  ids_distinct uuidv4 s → run uuidv4 evs s = Some s' → ids_distinct uuidv4 s'.
Proof.
  revert s. induction evs as [| ev evs IH]; intros s Hinv Hrun; simpl in Hrun.
  - by inversion Hrun; subst.
  - destruct (step uuidv4 ev s) as [s1 |] eqn:Hstep; simpl in Hrun; [| done].
    apply (IH s1); [| done]. by eapply ids_distinct_step.
Qed.

Lemma ids_distinct_initial : ids_distinct uuidv4 initial_state.
Proof. repeat split; simpl; constructor. Qed.

Lemma ids_distinct_after_delete id s :
  ids_distinct uuidv4 s →
  find_email id (emails (snd (delete_email_route id s))) = None.
Proof.
  intros (_ & Hnd & _).
  unfold delete_email_route.
  pose proof (findIndex_split (fun e => String.eqb (email_id e) id) (emails s)) as Hsplit.
  destruct (findIndex _ (emails s)) as [i |]; simpl.
  - destruct Hsplit as (before & e & after & Heq & _ & Hbefore & Hpe & _ & ->).
    rewrite find_email_app_miss by exact Hbefore.
    rewrite Heq, fmap_app, fmap_cons in Hnd.
    apply NoDup_app in Hnd as (_ & _ & Hnd).
    apply NoDup_cons in Hnd as [Hnotin _].
    apply String.eqb_eq in Hpe.
    destruct (find_email id after) as [x |] eqn:Hx; [| done].
    exfalso. apply Hnotin. unfold find_email in Hx.
    apply find_some in Hx as [Hin Hid].
    apply String.eqb_eq in Hid. rewrite Hpe, <- Hid.
    apply list_elem_of_fmap. exists x. split; [done |].
    by apply list_elem_of_In.
  - by destruct Hsplit as [Hfind _].
Qed.

End Ids.

Lemma sample_uuid_inj : Inj (=) (=) sample_uuid.
Proof.
  intros j k Hjk. unfold sample_uuid in Hjk.
  apply (inj (String.app "id-")) in Hjk. by apply (inj pretty) in Hjk.
Qed.




(** X3. When the id generator never repeats, a deleted email is gone: in
    every state the server reaches, after [DELETE /api/emails/:id] the
    same id is answered with 404 by the email route and by both
    attachment routes. *)
Theorem deleted_email_is_gone (uuidv4 : nat → string) (evs : list Event)
    (s : ServerState) (id aid : string) :
  Inj (=) (=) uuidv4 →
  run uuidv4 evs initial_state = Some s →
  get_email id (snd (delete_email_route id s)) = Status404 "Email not found"
  ∧ get_attachment id aid (snd (delete_email_route id s))
    = NotFound "Email not found"
  ∧ get_attachment_inline id aid (snd (delete_email_route id s))
    = NotFound "Email not found".
Proof.
  intros Hinj Hrun.
  pose proof (ids_distinct_run uuidv4 Hinj evs _ _ (ids_distinct_initial uuidv4) Hrun)
    as Hinv.
  pose proof (ids_distinct_after_delete uuidv4 id s Hinv) as Hgone.
  unfold get_email, get_attachment, get_attachment_inline, serve_attachment.
  by rewrite Hgone.
Qed.

Lemma deleted_email_is_gone_witness :
  get_email "id-2"
    (snd (delete_email_route "id-2"
            (default initial_state
               (run sample_uuid
                  [SmtpParsed sample_envelope (Parsed sample_parsed) 5 "t1"]
                  initial_state))))
  = Status404 "Email not found".
Proof.
  refine (proj1 (deleted_email_is_gone sample_uuid
            [SmtpParsed sample_envelope (Parsed sample_parsed) 5 "t1"]
            _ "id-2" "id-0" sample_uuid_inj _)).
  reflexivity.
Defined.

(** X4. A message that has just been ingested is the first entry of
    [GET /api/emails], and [GET /api/emails/:id] with its id answers with
    it, even if an older email carried the same id.  The answer lists one
    metadata entry per parsed attachment, in order, with the attachment's
    id, file name, content type, size and content id. *)
Theorem ingested_email_is_listed (uuidv4 : nat → string) (env : Envelope)
    (parsed : ParsedMail) (now : Z) (ts : string) (s : ServerState) :
  let s' := snd (onData_ingest uuidv4 env (Parsed parsed) now ts s) in
  let email := make_email uuidv4 env parsed ts (uuid_calls s) in
  head (get_emails s') = Some email
  ∧ get_email (email_id email) s' = Json (email_response email)
  ∧ length (resp_attachments (email_response email))
    = length (default [] (parsed_attachments parsed))
  ∧ ∀ i pa,
      default [] (parsed_attachments parsed) !! i = Some pa →
      resp_attachments (email_response email) !! i =
        Some {| meta_id := uuidv4 (uuid_calls s + i)%nat;
                meta_filename := or_str (pa_filename pa) "unnamed";
                meta_contentType :=
                  or_str (pa_contentType pa) "application/octet-stream";
                meta_size := or_num (pa_size pa) 0;
                meta_cid := or_null (pa_cid pa) |}.
Proof.
  intros s' email.
  split.
  { subst s'. unfold get_emails. simpl emails.
    destruct (store_insert_head EMAILS_CAP email (emails s)) as [t Ht];
      [unfold EMAILS_CAP; lia |].
    subst email. by rewrite Ht. }
  split.
  { unfold get_email. subst s' email. by rewrite find_new_email. }
  subst email. unfold make_email, email_response. cbn [email_attachments resp_attachments].
  rewrite length_fmap.
  destruct (parsed_attachments parsed) as [atts |]; simpl default.
  - split; [apply make_attachments_length |].
    intros i pa Hi. rewrite list_lookup_fmap.
    by rewrite (make_attachments_lookup uuidv4 _ atts i pa Hi).
  - split; [done |]. intros i pa Hi. by rewrite lookup_nil in Hi.
Qed.




(** ** Retention *)

Lemma insert_all_lookup_old {A} (cap : nat) (xs l : list A) (i : nat) :
  (length l ≤ cap)%nat →
  insert_all cap xs l !! (length xs + i)%nat =
    if decide (length xs + i < cap)%nat then l !! i else None.
Proof.
  intros Hlen. rewrite insert_all_take by exact Hlen.
  case_decide as Hlt.
  - rewrite lookup_take_lt by exact Hlt.
    rewrite lookup_app_r by (rewrite length_reverse; lia).
    rewrite length_reverse. f_equal. lia.
  - apply lookup_take_ge. lia.
Qed.

Lemma insert_all_lookup_new {A} (cap : nat) (xs l : list A) (j : nat) :
  (length l ≤ cap)%nat → (j < length xs)%nat →
  insert_all cap xs l !! j =
    if decide (j < cap)%nat then reverse xs !! j else None.
Proof.
  intros Hlen Hj. rewrite insert_all_take by exact Hlen.
  case_decide as Hlt.
  - rewrite lookup_take_lt by exact Hlt.
    apply lookup_app_l. by rewrite length_reverse.
  - apply lookup_take_ge. lia.
Qed.

(** X6. How long an entry is kept.  In a store within its capacity, [k]
    further insertions move the entry at index [i] to index [k + i]; it
    is still stored exactly when [k + i] is below the capacity, and
    otherwise no index at or beyond the capacity holds anything.  The
    first [k] places hold the inserted entries, the last inserted first.
    So the email store keeps an email for the next 99 arrivals and the
    error store keeps a record for the next 49. *)
Theorem store_entry_lifetime {A : Type} (cap : nat) (xs l : list A) (i j : nat) :
  (length l ≤ cap)%nat →
  (j < length xs)%nat →
  insert_all cap xs l !! (length xs + i)%nat =
    (if decide (length xs + i < cap)%nat then l !! i else None)
  ∧ insert_all cap xs l !! j =
      (if decide (j < cap)%nat then reverse xs !! j else None)
  ∧ ((cap ≤ length xs)%nat → insert_all cap xs l = take cap (reverse xs)).
Proof.
  intros Hlen Hj.
  split; [by apply insert_all_lookup_old |].
  split; [by apply insert_all_lookup_new |].
  intros Hcap. rewrite insert_all_take by exact Hlen.
  rewrite take_app_le by (rewrite length_reverse; lia). done.
Qed.

Lemma store_entry_lifetime_witness :
  insert_all EMAILS_CAP (replicate 99 sample_email) [sample_email] !! (99 + 0)%nat
    = Some sample_email
  ∧ insert_all ERRORS_CAP (replicate 50 sample_error) [sample_error] !! (50 + 0)%nat
    = None.
Proof.
  split.
  - refine (proj1 (store_entry_lifetime EMAILS_CAP (replicate 99 sample_email)
                     [sample_email] 0 0 _ _)).
    + vm_compute. lia.
    + vm_compute. lia.
  - refine (proj1 (store_entry_lifetime ERRORS_CAP (replicate 50 sample_error)
                     [sample_error] 0 0 _ _)).
    + vm_compute. lia.
    + vm_compute. lia.
Defined.

(** ** Sessions in one window *)

Section Window.
Variable uuidv4 : nat → string.

Lemma onData_parsed_below env now ts rnd parsed now' ts' s n :
  truthy (rateLimit (config s) !! "enabled") = true →
  rateLimit (config s) !! "maxPerSecond" = Some (JNum n) →
  is_Some (simulateLatency rnd (config s)) →
  emailsInCurrentSecond s < n →
  ∃ wait s1,
    onData uuidv4 env now ts rnd (Parsed parsed) now' ts' s = Some (Ack, wait, s1)
    ∧ config s1 = config s
    ∧ emailsInCurrentSecond s1 = emailsInCurrentSecond s + 1
    ∧ errors s1 = errors s.
Proof.
  intros Hon Hmax [w Hw] Hlt. unfold onData, onData_admit.
  rewrite (checkRateLimit_enabled now _ _ _ n Hon Hmax).
  assert ((emailsInCurrentSecond s >=? n) = false) as -> by lia.
  simpl. rewrite Hw. simpl. by eexists _, _.
Qed.

Lemma onData_at_limit env now ts rnd res now' ts' s n :
  truthy (rateLimit (config s) !! "enabled") = true →
  rateLimit (config s) !! "maxPerSecond" = Some (JNum n) →
  n ≤ emailsInCurrentSecond s →
  ∃ s1,
    onData uuidv4 env now ts rnd res now' ts' s
      = Some (Reject 421 (rate_limit_message n), 0, s1)
    ∧ config s1 = config s
    ∧ emailsInCurrentSecond s1 = emailsInCurrentSecond s
    ∧ emails s1 = emails s.
Proof.
  intros Hon Hmax Hge. unfold onData, onData_admit.
  rewrite (checkRateLimit_enabled now _ _ _ n Hon Hmax).
  assert ((emailsInCurrentSecond s >=? n) = true) as -> by lia.
  simpl. by eexists.
Qed.

Lemma run_sessions_window ins : ∀ s n,
  truthy (rateLimit (config s) !! "enabled") = true →
  rateLimit (config s) !! "maxPerSecond" = Some (JNum n) →
  (∀ rnd, is_Some (simulateLatency rnd (config s))) →
  Forall (fun i => is_parsed (si_res i) = true) ins →
  ∃ s',
    run_sessions uuidv4 ins s =
      Some (replicate (length ins `min` Z.to_nat (n - emailsInCurrentSecond s)) Ack
            ++ replicate (length ins - Z.to_nat (n - emailsInCurrentSecond s))
                 (Reject 421 (rate_limit_message n)),
            s')
    ∧ emailsInCurrentSecond s' =
        emailsInCurrentSecond s
        + Z.of_nat (length ins `min` Z.to_nat (n - emailsInCurrentSecond s)).
Proof.
  induction ins as [| i ins IH]; intros s n Hon Hmax Hlat Hall.
  - exists s. simpl. split; [done | lia].
  - apply Forall_cons in Hall as [Hi Hall].
    destruct (si_res i) as [parsed |] eqn:Hres; [| discriminate].
    cbn [run_sessions]. rewrite Hres.
    destruct (Z.lt_ge_cases (emailsInCurrentSecond s) n) as [Hlt | Hge].
    + destruct (onData_parsed_below (si_env i) (si_now i) (si_ts i) (si_rnd i)
                  parsed (si_now' i) (si_ts' i) s n Hon Hmax (Hlat _) Hlt)
        as (wait & s1 & -> & Hcfg & Hcnt & _).
      destruct (IH s1 n) as (s' & Hrun & Hfinal); try (rewrite Hcfg; done); [done |].
      simpl. rewrite Hrun. simpl. exists s'.
      rewrite Hcnt in *.
      assert (Z.to_nat (n - emailsInCurrentSecond s)
              = S (Z.to_nat (n - (emailsInCurrentSecond s + 1)))) as -> by lia.
      simpl. split; [done | lia].
    + destruct (onData_at_limit (si_env i) (si_now i) (si_ts i) (si_rnd i)
                  (Parsed parsed) (si_now' i) (si_ts' i) s n Hon Hmax Hge)
        as (s1 & -> & Hcfg & Hcnt & _).
      destruct (IH s1 n) as (s' & Hrun & Hfinal); try (rewrite Hcfg; done); [done |].
      simpl. rewrite Hrun. simpl. exists s'.
      rewrite Hcnt in *.
      assert (Z.to_nat (n - emailsInCurrentSecond s) = 0%nat) as Hz by lia.
      rewrite Hz in *. rewrite Nat.min_0_r in *. simpl.
      rewrite Nat.sub_0_r. split; [done | lia].
Qed.

End Window.

(** X7. Sessions that run one after the other within one window.  With
    rate limiting enabled, the limit holding the number [n], and a
    latency setting the helper can compute with, messages that all parse
    are acknowledged until the counter reaches [n] and rejected with 421
    from then on: of [k] sessions started at counter [c], the first
    [min k (n - c)] are acknowledged (none when [n ≤ c]) and all the
    others get the limiter's 421 message; the counter ends at [c] plus
    the number acknowledged. *)
Theorem sequential_sessions_fill_the_window (uuidv4 : nat → string)
    (ins : list SessionInput) (s : ServerState) (n : Z) :
  truthy (rateLimit (config s) !! "enabled") = true →
  rateLimit (config s) !! "maxPerSecond" = Some (JNum n) →
  (∀ rnd, is_Some (simulateLatency rnd (config s))) →
  Forall (fun i => is_parsed (si_res i) = true) ins →
  ∃ s',
    run_sessions uuidv4 ins s =
      Some (replicate (length ins `min` Z.to_nat (n - emailsInCurrentSecond s)) Ack
            ++ replicate (length ins - Z.to_nat (n - emailsInCurrentSecond s))
                 (Reject 421 (rate_limit_message n)),
            s')
    ∧ emailsInCurrentSecond s' =
        emailsInCurrentSecond s
        + Z.of_nat (length ins `min` Z.to_nat (n - emailsInCurrentSecond s)).
Proof. apply run_sessions_window. Qed.

Lemma sequential_sessions_fill_the_window_witness :
  ∃ s',
    run_sessions sample_uuid [sample_session 100; sample_session 200] initial_state
      = Some ([Ack; Reject 421 (rate_limit_message 1)], s')
    ∧ emailsInCurrentSecond s' = 1.
Proof.
  refine (sequential_sessions_fill_the_window sample_uuid
            [sample_session 100; sample_session 200] initial_state 1 _ _ _ _).
  - reflexivity.
  - reflexivity.
  - intros rnd. eexists. reflexivity.
  - repeat constructor.
Defined.

(** ** Sessions that overlap *)

Lemma run_app uuidv4 (evs1 evs2 : list Event) (s : ServerState) :
  run uuidv4 (evs1 ++ evs2) s = run uuidv4 evs1 s ≫= run uuidv4 evs2.
Proof.
  revert s. induction evs1 as [| ev evs1 IH]; intros s; simpl; [done |].
  destruct (step uuidv4 ev s) as [s1 |]; simpl; [apply IH | done].
Qed.

Lemma store_insert_length_min {A} (cap : nat) (x : A) (l : list A) :
  (length l ≤ cap)%nat →
  length (store_insert cap x l) = (cap `min` S (length l))%nat.
Proof.
  intros Hlen. rewrite store_insert_take by exact Hlen.
  rewrite length_take. simpl. lia.
Qed.

Lemma run_checks_only uuidv4 (ins : list SessionInput) (s : ServerState) (n : Z) :
  truthy (rateLimit (config s) !! "enabled") = true →
  rateLimit (config s) !! "maxPerSecond" = Some (JNum n) →
  emailsInCurrentSecond s < n →
  run uuidv4 ((fun i => SmtpData (si_env i) (si_now i) (si_ts i)) <$> ins) s = Some s.
Proof.
  intros Hon Hmax Hlt. induction ins as [| i ins IH]; [done |].
  rewrite fmap_cons. cbn [run step]. unfold onData_admit.
  rewrite (checkRateLimit_enabled _ _ _ _ n Hon Hmax).
  assert ((emailsInCurrentSecond s >=? n) = false) as -> by lia.
  simpl. exact IH.
Qed.

Lemma run_ingests_only uuidv4 (ins : list SessionInput) : ∀ s,
  Forall (fun i => is_parsed (si_res i) = true) ins →
  (length (emails s) ≤ EMAILS_CAP)%nat →
  ∃ s',
    run uuidv4
      ((fun i => SmtpParsed (si_env i) (si_res i) (si_now' i) (si_ts' i)) <$> ins) s
      = Some s'
    ∧ emailsInCurrentSecond s' = emailsInCurrentSecond s + Z.of_nat (length ins)
    ∧ length (emails s') = (EMAILS_CAP `min` (length (emails s) + length ins))%nat
    ∧ errors s' = errors s
    ∧ config s' = config s.
Proof.
  induction ins as [| i ins IH]; intros s Hall Hlen.
  - exists s. split; [done |]. split; [cbn [length]; lia |].
    split; [cbn [length]; lia | done].
  - apply Forall_cons in Hall as [Hi Hall].
    destruct (si_res i) as [parsed |] eqn:Hres; [| discriminate].
    rewrite fmap_cons. cbn [run step mbind option_bind]. rewrite Hres.
    set (s1 := snd (onData_ingest uuidv4 (si_env i) (Parsed parsed) (si_now' i)
                      (si_ts' i) s)).
    assert (Hlen1 : length (emails s1)
                    = (EMAILS_CAP `min` S (length (emails s)))%nat)
      by (apply store_insert_length_min; exact Hlen).
    destruct (IH s1 Hall) as (s' & Hrun & Hcnt & Hem & Herr & Hcfg); [lia |].
    exists s'. rewrite Hrun.
    split; [done |].
    split; [rewrite Hcnt; subst s1; cbn [length snd onData_ingest emailsInCurrentSecond]; lia |].
    split; [rewrite Hem, Hlen1; cbn [length]; lia |].
    split; [by rewrite Herr | by rewrite Hcfg].
Qed.

(** X8. The limit is checked when a session starts and the counter is
    advanced when it ends, so sessions that overlap are not held back.
    With rate limiting enabled and the counter [c] below the limit [n]:
    when [k] sessions all pass their check before any of them gets its
    parser result, and all parse, every one of them is stored; the counter
    ends at [c + k], whatever [n] is, no error is recorded, and the email
    store grows by [k] up to its capacity. *)
Theorem overlapping_sessions_all_accepted (uuidv4 : nat → string)
    (ins : list SessionInput) (s : ServerState) (n : Z) :
  truthy (rateLimit (config s) !! "enabled") = true →
  rateLimit (config s) !! "maxPerSecond" = Some (JNum n) →
  emailsInCurrentSecond s < n →
  Forall (fun i => is_parsed (si_res i) = true) ins →
  (length (emails s) ≤ EMAILS_CAP)%nat →
  ∃ s',
    run uuidv4 (overlapping ins) s = Some s'
    ∧ emailsInCurrentSecond s' = emailsInCurrentSecond s + Z.of_nat (length ins)
    ∧ length (emails s') = (EMAILS_CAP `min` (length (emails s) + length ins))%nat
    ∧ errors s' = errors s.
Proof.
  intros Hon Hmax Hlt Hall Hlen. unfold overlapping.
  rewrite run_app, (run_checks_only uuidv4 ins s n Hon Hmax Hlt). simpl.
  destruct (run_ingests_only uuidv4 ins s Hall Hlen) as (s' & Hrun & Hcnt & Hem & Herr & _).
  exists s'. by repeat split.
Qed.

Lemma overlapping_sessions_all_accepted_witness :
  ∃ s',
    run sample_uuid
      (overlapping [sample_session 100; sample_session 110; sample_session 120])
      initial_state = Some s'
    ∧ emailsInCurrentSecond s' = 3
    ∧ length (emails s') = 3%nat
    ∧ errors s' = [].
Proof.
  refine (overlapping_sessions_all_accepted sample_uuid
            [sample_session 100; sample_session 110; sample_session 120]
            initial_state 1 _ _ _ _ _).
  - reflexivity.
  - reflexivity.
  - reflexivity.
  - repeat constructor.
  - vm_compute. lia.
Defined.

(** ** More invariants of the reachable states *)

Section Reachable.
Variable uuidv4 : nat → string.

(** A property of states that the initial state has and every event
    keeps holds in every state the server reaches. *)
Lemma run_invariant (P : ServerState → Prop) :
  (∀ ev s s', P s → step uuidv4 ev s = Some s' → P s') →
  ∀ evs s s', P s → run uuidv4 evs s = Some s' → P s'.
Proof.
  intros Hstep evs. induction evs as [| ev evs IH]; intros s s' HP Hrun; simpl in Hrun.
  - by inversion Hrun; subst.
  - destruct (step uuidv4 ev s) as [s1 |] eqn:Hs; simpl in Hrun; [| done].
    eapply IH; [| exact Hrun]. by eapply Hstep.
Qed.

Lemma counter_nonneg_step ev s s' :
  0 ≤ emailsInCurrentSecond s → step uuidv4 ev s = Some s' →
  0 ≤ emailsInCurrentSecond s'.
Proof.
  intros Hc Hstep.
  destruct ev as [env now ts | env res now ts | | id | | | body]; simpl in Hstep.
  - destruct (onData_admit uuidv4 env now ts s) as [[adm s1] |] eqn:Ha;
      simpl in Hstep; inversion Hstep; subst; clear Hstep.
    by destruct (onData_admit_inv _ _ _ _ _ _ _ Ha) as [[_ ->] | (n & _ & _ & _ & _ & ->)].
  - inversion Hstep; subst. destruct res; simpl; lia.
  - inversion Hstep; subst. simpl. lia.
  - by inversion Hstep; subst.
  - by inversion Hstep; subst.
  - by inversion Hstep; subst.
  - by inversion Hstep; subst.
Qed.



End Reachable.

Lemma merged_field_is_Some body g f prior :
  is_Some (prior !! f) → is_Some (merged_field body g f prior).
Proof. unfold merged_field. intros Hp. by destruct (supplied body g f). Qed.

Lemma put_config_populated body c :
  config_populated c → config_populated (put_config body c).
Proof.
  intros (H1 & H2 & H3 & H4 & H5). unfold config_populated.
  rewrite !put_config_rateLimit, !put_config_latency.
  repeat split; by apply merged_field_is_Some.
Qed.

Lemma config_populated_step uuidv4 ev s s' :
  config_populated (config s) → step uuidv4 ev s = Some s' →
  config_populated (config s').
Proof.
  intros Hc Hstep.
  destruct ev as [env now ts | env res now ts | | id | | | body]; simpl in Hstep.
  - destruct (onData_admit uuidv4 env now ts s) as [[adm s1] |] eqn:Ha;
      simpl in Hstep; inversion Hstep; subst; clear Hstep.
    by destruct (onData_admit_inv _ _ _ _ _ _ _ Ha) as [[_ ->] | (n & _ & _ & _ & _ & ->)].
  - inversion Hstep; subst. by destruct res.
  - by inversion Hstep; subst.
  - by inversion Hstep; subst.
  - by inversion Hstep; subst.
  - by inversion Hstep; subst.
  - inversion Hstep; subst. simpl. by apply put_config_populated.
Qed.

Lemma default_config_populated : config_populated default_config.
Proof. repeat split; by eexists. Qed.

(** X9. The window counter that [GET /api/stats] reports is never
    negative in a state the server reaches.  Hence a limit of zero or
    less, with rate limiting enabled, shuts the server: in every such
    state the check denies, whatever the clock says, and the session ends
    with the 421 rejection. *)
Theorem nonpositive_limit_rejects_everything (uuidv4 : nat → string)
    (evs : list Event) (s : ServerState) (n : Z) (env : Envelope) (now : Z)
    (ts : string) :
  run uuidv4 evs initial_state = Some s →
  0 ≤ stats_emailsInCurrentSecond (get_stats s)
  ∧ (truthy (rateLimit (config s) !! "enabled") = true →
     rateLimit (config s) !! "maxPerSecond" = Some (JNum n) →
     n ≤ 0 →
     ∃ s1, onData_admit uuidv4 env now ts s
           = Some (Finished (Reject 421 (rate_limit_message n)), s1)).
Proof.
  intros Hrun.
  assert (Hc : 0 ≤ emailsInCurrentSecond s).
  { apply (run_invariant uuidv4 (fun s => 0 ≤ emailsInCurrentSecond s)
             (counter_nonneg_step uuidv4) evs initial_state s); [simpl; lia | done]. }
  split; [exact Hc |].
  intros Hon Hmax Hn. unfold onData_admit.
  rewrite (checkRateLimit_enabled _ _ _ _ n Hon Hmax).
  assert ((emailsInCurrentSecond s >=? n) = true) as -> by lia.
  simpl. by eexists.
Qed.

Lemma nonpositive_limit_rejects_everything_witness :
  0 ≤ stats_emailsInCurrentSecond
        (get_stats
           (default initial_state
              (run sample_uuid
                 [PutConfig (JObj {[ "rateLimit" := JObj {[ "maxPerSecond" := JNum 0 ]} ]})]
                 initial_state))).
Proof.
  refine (proj1 (nonpositive_limit_rejects_everything sample_uuid
            [PutConfig (JObj {[ "rateLimit" := JObj {[ "maxPerSecond" := JNum 0 ]} ]})]
            _ 0 sample_envelope 0 "t" _)).
  reflexivity.
Defined.



(** X11. No update removes a key from the configuration: a key present
    in a group before [PUT /api/config] is present after it.  So in every
    state the server reaches all five settings of the default
    configuration are still there (whatever values they hold). *)
Theorem config_keys_are_kept (uuidv4 : nat → string) (evs : list Event)
    (s : ServerState) (body : jsval) (c : Config) (f : string) :
  run uuidv4 evs initial_state = Some s →
  config_populated (config s)
  ∧ (is_Some (rateLimit c !! f) → is_Some (rateLimit (put_config body c) !! f))
  ∧ (is_Some (latency c !! f) → is_Some (latency (put_config body c) !! f)).
Proof.
  intros Hrun. split.
  - apply (run_invariant uuidv4 (fun s => config_populated (config s))
             (config_populated_step uuidv4) evs initial_state s);
      [apply default_config_populated | done].
  - rewrite put_config_rateLimit, put_config_latency.
    split; apply merged_field_is_Some.
Qed.

Lemma config_keys_are_kept_witness :
  config_populated
    (config (default initial_state (run sample_uuid sample_events initial_state))).
Proof.
  refine (proj1 (config_keys_are_kept sample_uuid sample_events _
                   JNull default_config "enabled" _)).
  reflexivity.
Defined.

Lemma config_eq (a b : Config) :
  rateLimit a = rateLimit b → latency a = latency b → a = b.
Proof. destruct a, b. simpl. by intros -> ->. Qed.

Lemma merged_field_twice body g f prior :
  match supplied body g f with
  | Some x => Some x
  | None => merged_field body g f prior
  end = merged_field body g f prior.
Proof. unfold merged_field. by destruct (supplied body g f). Qed.

(** X12. Sending the same update twice is the same as sending it once:
    for every body and every configuration the second [PUT /api/config]
    changes nothing and answers with the same configuration. *)
Theorem put_config_idempotent (body : jsval) (c : Config) :
  put_config body (put_config body c) = put_config body c
  ∧ put_config_response body (put_config body c) = put_config_response body c.
Proof.
  assert (H : put_config body (put_config body c) = put_config body c).
  { apply config_eq; apply map_eq; intros f.
    - rewrite put_config_rateLimit. unfold merged_field at 1.
      rewrite !put_config_rateLimit. apply merged_field_twice.
    - rewrite put_config_latency. unfold merged_field at 1.
      rewrite !put_config_latency. apply merged_field_twice. }
  split; [exact H |]. unfold put_config_response. exact H.
Qed.

(** ** The settings form *)

Lemma saveConfig_body_groups (f : ConfigForm) :
  get_prop (saveConfig_body f) "rateLimit" =
    Some (JObj {[ "enabled" := JBool (form_rateLimitEnabled f);
                  "maxPerSecond" :=
                    number_to_json (or_number (form_maxPerSecond f) 1) ]})
  ∧ get_prop (saveConfig_body f) "latency" =
      Some (JObj {[ "enabled" := JBool (form_latencyEnabled f);
                    "minMs" := number_to_json (or_number (form_minLatency f) 0);
                    "maxMs" := number_to_json (or_number (form_maxLatency f) 0) ]}).
Proof.
  unfold saveConfig_body, get_prop. split.
  - apply lookup_insert_eq.
  - rewrite lookup_insert_ne by done. apply lookup_singleton_eq.
Qed.

Lemma number_to_json_finite (r : jsnumber) (d : Z) :
  is_finite r = true → number_to_json (or_number r d) = JNum (form_value r d).
Proof.
  destruct r as [| z | neg]; simpl; [done | | done].
  intros _. by destruct (z =? 0).
Qed.

Lemma form_value_nonzero (r : jsnumber) (d : Z) : d ≠ 0 → form_value r d ≠ 0.
Proof.
  intros Hd. destruct r as [| z | neg]; simpl; [done | | done].
  destruct (Z.eqb_spec z 0); done.
Qed.

(** X13. Saving the settings form overwrites all five settings with what
    the form holds.  When none of the three number inputs parsed to an
    infinity, then after [saveConfig]'s request, whatever the
    configuration was before: the two [enabled] flags are the check
    boxes; [maxPerSecond], [minMs] and [maxMs] hold numbers, namely the
    parsed inputs, with 1, 0 and 0 standing in for an input that is
    empty, not a number, or zero; in particular [maxPerSecond] is never
    0; and every other key of the two groups keeps its value. *)
Theorem saveConfig_sets_all_settings (f : ConfigForm) (c : Config) (k : string) :
  is_finite (form_maxPerSecond f) = true →
  is_finite (form_minLatency f) = true →
  is_finite (form_maxLatency f) = true →
  rateLimit (put_config (saveConfig_body f) c) !! "enabled"
    = Some (JBool (form_rateLimitEnabled f))
  ∧ rateLimit (put_config (saveConfig_body f) c) !! "maxPerSecond"
    = Some (JNum (form_value (form_maxPerSecond f) 1))
  ∧ form_value (form_maxPerSecond f) 1 ≠ 0
  ∧ latency (put_config (saveConfig_body f) c) !! "enabled"
    = Some (JBool (form_latencyEnabled f))
  ∧ latency (put_config (saveConfig_body f) c) !! "minMs"
    = Some (JNum (form_value (form_minLatency f) 0))
  ∧ latency (put_config (saveConfig_body f) c) !! "maxMs"
    = Some (JNum (form_value (form_maxLatency f) 0))
  ∧ numeric_fields_ok (put_config (saveConfig_body f) c) = true
  ∧ (k ≠ "enabled" → k ≠ "maxPerSecond" →
     rateLimit (put_config (saveConfig_body f) c) !! k = rateLimit c !! k)
  ∧ (k ≠ "enabled" → k ≠ "minMs" → k ≠ "maxMs" →
     latency (put_config (saveConfig_body f) c) !! k = latency c !! k).
Proof.
  intros Hmax Hmin Hhi.
  destruct (saveConfig_body_groups f) as [Hr Hl].
  assert (Hrl : ∀ j, rateLimit (put_config (saveConfig_body f) c) !! j =
            match ({[ "enabled" := JBool (form_rateLimitEnabled f);
                      "maxPerSecond" := JNum (form_value (form_maxPerSecond f) 1) ]}
                     : gmap string jsval) !! j with
            | Some x => Some x
            | None => rateLimit c !! j
            end).
  { intros j. rewrite put_config_rateLimit. unfold merged_field, supplied.
    rewrite Hr. cbn [truthy own_props].
    by rewrite (number_to_json_finite _ 1 Hmax). }
  assert (Hlt : ∀ j, latency (put_config (saveConfig_body f) c) !! j =
            match ({[ "enabled" := JBool (form_latencyEnabled f);
                      "minMs" := JNum (form_value (form_minLatency f) 0);
                      "maxMs" := JNum (form_value (form_maxLatency f) 0) ]}
                     : gmap string jsval) !! j with
            | Some x => Some x
            | None => latency c !! j
            end).
  { intros j. rewrite put_config_latency. unfold merged_field, supplied.
    rewrite Hl. cbn [truthy own_props].
    by rewrite (number_to_json_finite _ 0 Hmin), (number_to_json_finite _ 0 Hhi). }
  assert (H1 : rateLimit (put_config (saveConfig_body f) c) !! "maxPerSecond"
               = Some (JNum (form_value (form_maxPerSecond f) 1))).
  { rewrite Hrl. rewrite lookup_insert_ne by done. by rewrite lookup_singleton_eq. }
  assert (H2 : latency (put_config (saveConfig_body f) c) !! "minMs"
               = Some (JNum (form_value (form_minLatency f) 0))).
  { rewrite Hlt. rewrite lookup_insert_ne by done. by rewrite lookup_insert_eq. }
  assert (H3 : latency (put_config (saveConfig_body f) c) !! "maxMs"
               = Some (JNum (form_value (form_maxLatency f) 0))).
  { rewrite Hlt. rewrite !lookup_insert_ne by done. by rewrite lookup_singleton_eq. }
  split; [rewrite Hrl; by rewrite lookup_insert_eq |].
  split; [exact H1 |].
  split; [by apply form_value_nonzero |].
  split; [rewrite Hlt; by rewrite lookup_insert_eq |].
  split; [exact H2 |].
  split; [exact H3 |].
  split; [unfold numeric_fields_ok; by rewrite H1, H2, H3 |].
  split.
  - intros Hk1 Hk2. rewrite Hrl.
    rewrite lookup_insert_ne by done. by rewrite lookup_singleton_ne.
  - intros Hk1 Hk2 Hk3. rewrite Hlt.
    rewrite !lookup_insert_ne by done. by rewrite lookup_singleton_ne.
Qed.

Lemma saveConfig_sets_all_settings_witness :
  rateLimit (put_config (saveConfig_body sample_form)
               (put_config text_limit_body default_config)) !! "maxPerSecond"
    = Some (JNum 1)
  ∧ numeric_fields_ok (put_config (saveConfig_body sample_form)
                         (put_config text_limit_body default_config)) = true.
Proof.
  pose proof (saveConfig_sets_all_settings sample_form
                (put_config text_limit_body default_config) "enabled"
                eq_refl eq_refl eq_refl) as (_ & H1 & _ & _ & _ & _ & H2 & _).
  split; [exact H1 | exact H2].
Defined.

(** ** The sender's display name *)

Lemma span_app (p : ascii → bool) (group rest : list ascii) :
  forallb p group = true →
  match rest with [] => true | c :: _ => negb (p c) end = true →
  span p (group ++ rest) = group.
Proof.
  intros Hgroup Hrest. induction group as [| c group IH]; simpl in *.
  - destruct rest as [| c rest]; [done |]. simpl.
    by destruct (p c).
  - apply andb_prop in Hgroup as [-> Hgroup]. by rewrite IH.
Qed.

Lemma span_Forall (p : ascii → bool) (cs : list ascii) :
  Forall (fun c => p c = true) (span p cs).
Proof.
  induction cs as [| c cs IH]; simpl; [constructor |].
  destruct (p c) eqn:Hc; by constructor.
Qed.

Lemma skip_sublist (p : ascii → bool) (cs : list ascii) : skip p cs `sublist_of` cs.
Proof.
  induction cs as [| c cs IH]; simpl; [done |].
  destruct (p c); [by apply sublist_cons | done].
Qed.

Lemma trim_Forall (P : ascii → Prop) (cs : list ascii) :
  Forall P cs → Forall P (trim cs).
Proof.
  intros Hall. unfold trim.
  apply Forall_reverse.
  apply (Forall_sublist _ _ _ (skip_sublist _ _)).
  apply Forall_reverse.
  by apply (Forall_sublist _ _ _ (skip_sublist _ _)).
Qed.

Lemma extractName_group (cs : list ascii) (c : ascii) (group : list ascii) :
  span name_char cs = c :: group →
  (Ascii.eqb c dquote = false)
  ∧ extractName (string_of_list_ascii cs)
    = string_of_list_ascii (trim (c :: group))
  ∧ extractName (string_of_list_ascii (dquote :: cs))
    = string_of_list_ascii (trim (c :: group)).
Proof.
  intros Hspan.
  assert (Hc : Ascii.eqb c dquote = false).
  { pose proof (span_Forall name_char cs) as Hall. rewrite Hspan in Hall.
    apply Forall_cons in Hall as [Hc _]. unfold name_char in Hc.
    by destruct (Ascii.eqb c dquote). }
  split; [exact Hc |].
  unfold extractName. rewrite !list_ascii_of_string_of_list_ascii.
  split.
  - destruct cs as [| c0 cs]; [done |].
    assert (c0 = c) as ->.
    { simpl in Hspan. destruct (name_char c0); by inversion Hspan. }
    rewrite Hc. by rewrite Hspan.
  - assert (Ascii.eqb dquote dquote = true) as -> by apply Ascii.eqb_refl.
    by rewrite Hspan.
Qed.

(** X14. What [extractName] shows for a sender.  When the text is a
    non-empty run of characters other than a double quote and [<],
    followed by nothing or by one of those two characters, the name is
    that run with the white space at both ends removed, and the same
    holds when a double quote stands before the run.  A text that is
    empty or starts with [<] is shown unchanged.  In every case the
    result is either the text itself or free of double quotes and [<]. *)
Theorem extractName_takes_the_leading_run (group rest : list ascii) (from : string) :
  group ≠ [] →
  forallb name_char group = true →
  match rest with [] => true | c :: _ => negb (name_char c) end = true →
  extractName (string_of_list_ascii (group ++ rest))
    = string_of_list_ascii (trim group)
  ∧ extractName (string_of_list_ascii (dquote :: group ++ rest))
    = string_of_list_ascii (trim group)
  ∧ extractName "" = ""
  ∧ extractName (String "<" from) = String "<" from
  ∧ (extractName from = from
     ∨ Forall (fun c => name_char c = true)
         (list_ascii_of_string (extractName from))).
Proof.
  intros Hne Hgroup Hrest.
  pose proof (span_app name_char group rest Hgroup Hrest) as Hspan.
  destruct group as [| c group]; [done |].
  destruct (extractName_group (( c :: group) ++ rest) c group Hspan) as (_ & H1 & H2).
  split; [exact H1 |].
  split; [exact H2 |].
  split; [reflexivity |].
  split; [reflexivity |].
  clear. unfold extractName. cbv zeta.
  destruct (span name_char _) as [| c0 g0] eqn:Hs; [by left |].
  right. rewrite list_ascii_of_string_of_list_ascii.
  apply trim_Forall. rewrite <- Hs. apply span_Forall.
Qed.

Lemma extractName_takes_the_leading_run_witness :
  extractName "App Team <app@example.test>" = "App Team".
Proof.
  refine (proj1 (extractName_takes_the_leading_run
            (list_ascii_of_string "App Team ")
            (list_ascii_of_string "<app@example.test>") "" _ _ _));
    [discriminate | reflexivity | reflexivity].
Defined.

(** ** Latency with the bounds the wrong way round *)

Lemma latency_draw_range_swapped (rnd : Q) (minMs maxMs : Z) :
  (0 <= rnd)%Q → (rnd < 1)%Q → maxMs < minMs →
  maxMs + 1 ≤
    Qfloor (Qplus (Qmult rnd (inject_Z (maxMs - minMs + 1))) (inject_Z minMs))
    ≤ minMs.
Proof.
  intros H0 H1 Hlt.
  set (n := maxMs - minMs + 1).
  assert (Hn : (inject_Z n <= 0)%Q).
  { replace 0%Q with (inject_Z 0) by reflexivity. rewrite <- Zle_Qle. lia. }
  split.
  - replace (maxMs + 1) with (n + minMs) by (unfold n; lia).
    rewrite <- (Qfloor_Z (n + minMs)). apply Qfloor_resp_le.
    rewrite inject_Z_plus. apply Qplus_le_l.
    apply Qlt_le_weak in H1. generalize dependent (inject_Z n). intros q Hq. nra.
  - rewrite <- (Qfloor_Z minMs) at 2. apply Qfloor_resp_le.
    rewrite <- (Qplus_0_l (inject_Z minMs)) at 2.
    apply Qplus_le_l.
    generalize dependent (inject_Z n). intros q Hq. nra.
Qed.

(** X15. Latency simulation with [maxMs] below [minMs].  The helper still
    sets a timer: for every random draw in [0, 1) the delay is an integer
    between [maxMs + 1] and [minMs], both included; when [maxMs] is
    [minMs - 1] it is always [minMs]. *)
Theorem simulateLatency_swapped_bounds (rnd : Q) (cfg : Config) (lo hi : Z) :
  (0 <= rnd)%Q →
  (rnd < 1)%Q →
  truthy (latency cfg !! "enabled") = true →
  latency cfg !! "minMs" = Some (JNum lo) →
  latency cfg !! "maxMs" = Some (JNum hi) →
  hi < lo →
  ∃ d : Z, simulateLatency rnd cfg = Some (SetTimeout d)
           ∧ hi + 1 ≤ d ≤ lo
           ∧ (hi = lo - 1 → d = lo).
Proof.
  intros H0 H1 Hon Hlo Hhi Hlt. unfold simulateLatency.
  rewrite Hon, Hlo, Hhi.
  pose proof (latency_draw_range_swapped rnd lo hi H0 H1 Hlt) as Hrange.
  exists (Qfloor (Qplus (Qmult rnd (inject_Z (hi - lo + 1))) (inject_Z lo))).
  split; [reflexivity |].
  split; [exact Hrange | lia].
Qed.

Lemma simulateLatency_swapped_bounds_witness :
  ∃ d : Z, simulateLatency (1 # 3) swapped_config = Some (SetTimeout d)
           ∧ 100 + 1 ≤ d ≤ 250
           ∧ (100 = 250 - 1 → d = 250).
Proof.
  refine (simulateLatency_swapped_bounds (1 # 3) swapped_config 250 100 _ _ _ _ _ _);
    solve [reflexivity | discriminate | lia].
Defined.
